(** * guestfish [alloc] and [sparse]: size parsing and image allocation

    A shallow embedding of [fish/alloc.c]: the size parser [parse_size]
    and the two command handlers [do_alloc] and [do_sparse], over a small
    model of the C library calls they make. *)

From Stdlib Require Import ZArith Ascii String Lia.
From Stdlib.Strings Require Import Byte.
From stdpp Require Import gmap strings list.

Local Open Scope Z_scope.

(** ** Fixed-width integers (LP64: 64-bit [uint64_t], [size_t], [off_t]) *)

Module Int.

Definition U64_MAX : Z := 2 ^ 64 - 1.
Definition OFF_MAX : Z := 2 ^ 63 - 1.

(** Conversion to [uint64_t] (and [size_t]): reduction modulo 2^64. *)
Definition to_uint64 (z : Z) : Z := z mod 2 ^ 64.

(** Conversion to a 64-bit signed type ([off_t], [ssize_t]):
    two's complement. *)
Definition to_off_t (z : Z) : Z := (z + 2 ^ 63) mod 2 ^ 64 - 2 ^ 63.

End Int.
Import Int.

(** ** The C library scanner used by [parse_size]

    [sscanf] is called with the formats ["%" SCNu64 "%c"] and ["%" SCNu64].
    The [%u] conversion skips white space, accepts an optional sign and then
    the longest run of decimal digits, as [strtoull] does; [%c] takes the
    next character whatever it is.  A C string ends at its first NUL, so a
    NUL character in the model counts as the end of the input. *)

Module Scan.

Definition NUL : ascii := "000"%char.

Definition isspace (c : ascii) : bool :=
  let n := N_of_ascii c in ((n =? 32) || ((9 <=? n) && (n <=? 13)))%N.

Definition isdigit (c : ascii) : bool :=
  let n := N_of_ascii c in ((48 <=? n) && (n <=? 57))%N.

Definition digit_value (c : ascii) : Z := Z.of_N (N_of_ascii c) - 48.

Definition at_end (s : string) : bool :=
  match s with
  | EmptyString => true
  | String c _ => Ascii.eqb c NUL
  end.

Fixpoint skip_space (s : string) : string :=
  match s with
  | String c s' => if isspace c then skip_space s' else s
  | EmptyString => EmptyString
  end.

(** The digit loop: [acc] is the value read so far (unbounded here, the
    range check is [strtoull_value]'s). *)
Fixpoint scan_digits (acc : Z) (s : string) : Z * string :=
  match s with
  | String c s' =>
      if isdigit c then scan_digits (acc * 10 + digit_value c) s' else (acc, s)
  | EmptyString => (acc, EmptyString)
  end.

(** What [strtoull] stores: [ULLONG_MAX] when the digits are out of
    range, else the value, negated modulo 2^64 after a minus sign. *)
Definition strtoull_value (neg : bool) (v : Z) : Z :=
  if U64_MAX <? v then U64_MAX
  else if neg then to_uint64 (- v) else v.

Inductive conversion : Type :=
| InputFailure
| MatchingFailure
| Converted (v : Z) (rest : string).

(** The [%] [SCNu64] conversion. *)
Definition scan_u64 (s : string) : conversion :=
  let s1 := skip_space s in
  if at_end s1 then InputFailure
  else
    let '(neg, s2) :=
      match s1 with
      | String c t =>
          if Ascii.eqb c "-" then (true, t)
          else if Ascii.eqb c "+" then (false, t)
          else (false, s1)
      | EmptyString => (false, s1)
      end in
    match s2 with
    | String c _ =>
        if isdigit c then
          let '(v, rest) := scan_digits 0 s2 in
          Converted (strtoull_value neg v) rest
        else MatchingFailure
    | EmptyString => MatchingFailure
    end.

(** Outcome of a [sscanf] call: which of [size] and [type] were assigned. *)
Inductive scanned : Type :=
| ScanEOF
| Scan0
| Scan1 (size : Z)
| Scan2 (size : Z) (type : ascii).

(** The value [sscanf] returns. *)
Definition items (r : scanned) : Z :=
  match r with
  | ScanEOF => -1
  | Scan0 => 0
  | Scan1 _ => 1
  | Scan2 _ _ => 2
  end.

(** [sscanf (str, "%" SCNu64 "%c", &size, &type)] *)
Definition sscanf_u64_c (str : string) : scanned :=
  match scan_u64 str with
  | InputFailure => ScanEOF
  | MatchingFailure => Scan0
  | Converted v rest =>
      match rest with
      | String c _ => if at_end rest then Scan1 v else Scan2 v c
      | EmptyString => Scan1 v
      end
  end.

(** [sscanf (str, "%" SCNu64, &size)] *)
Definition sscanf_u64 (str : string) : scanned :=
  match scan_u64 str with
  | InputFailure => ScanEOF
  | MatchingFailure => Scan0
  | Converted v _ => Scan1 v
  end.

End Scan.
Import Scan.

(** ** Diagnostics written to [stderr] *)

Inductive diag : Type :=
| UsageAlloc                      (* use 'alloc file size' to create an image *)
| UsageSparse                     (* use 'sparse file size' to create a sparse image *)
| AfterLaunch                     (* can't allocate or add disks after launching *)
| BadSize (str : string)          (* could not parse size specification '%s' *)
| Perror (what : string).         (* perror (what) *)

(** ** [parse_size] *)

(** What a call leaves behind: the returned status, the content of
    [*size_rtn] and the messages printed. *)
Record parsed : Type := Parsed {
  p_ret : Z;
  p_size : Z;
  p_err : list diag
}.

(** The [switch (type)] of [parse_size]: the new value of the local
    [uint64_t size], or [None] in the [default] case. *)
Definition switch_type (type : ascii) (size : Z) : option Z :=
  if Ascii.eqb type "k" || Ascii.eqb type "K" then
    Some (to_uint64 (size * 1024))
  else if Ascii.eqb type "m" || Ascii.eqb type "M" then
    Some (to_uint64 (size * (1024 * 1024)))
  else if Ascii.eqb type "g" || Ascii.eqb type "G" then
    Some (to_uint64 (size * (1024 * 1024 * 1024)))
  else if Ascii.eqb type "t" || Ascii.eqb type "T" then
    Some (to_uint64 (size * (1024 * 1024 * 1024 * 1024)))
  else if Ascii.eqb type "p" || Ascii.eqb type "P" then
    Some (to_uint64 (size * (1024 * 1024 * 1024 * 1024 * 1024)))
  else if Ascii.eqb type "e" || Ascii.eqb type "E" then
    Some (to_uint64 (size * (1024 * 1024 * 1024 * 1024 * 1024 * 1024)))
  else if Ascii.eqb type "s" then
    Some (to_uint64 (size * 512))
  else None.

(** [parse_size (str, size_rtn)]; the argument [size_rtn] is the content
    of the caller's location before the call. *)
Definition parse_size (str : string) (size_rtn : Z) : parsed :=
  let failure := Parsed (-1) size_rtn [BadSize str] in
  match sscanf_u64_c str with
  | Scan2 size type =>
      match switch_type type size with
      | Some size' => Parsed 0 (to_off_t size') []
      | None => failure
      end
  | _ =>
      match sscanf_u64 str with
      | Scan1 size => Parsed 0 (to_off_t (to_uint64 (size * 1024))) []
      | _ => failure
      end
  end.


(** ** The world the handlers run in

    Regular files by path, the open descriptors, the state of the guestfs
    handle [g], what was printed on [stderr], and the file-system calls made
    so far.  [script] lists what the environment does to the coming calls,
    one entry per call; when it is used up every call goes well. *)

Inductive outcome : Type :=
| Done                         (* the call succeeds in full *)
| Short (k : N)                (* a [write] takes at most [k] bytes *)
| Error (errno : positive).    (* the call fails with this error number *)

Inductive syscall : Type :=
| Open (path : string) (ret : Z)
| PosixFallocate (fd offset len ret : Z)
| Write (fd count ret : Z)
| Lseek (fd offset ret : Z)
| Close (fd ret : Z)
| Unlink (path : string).

Record world : Type := World {
  files : gmap string (list byte);
  fdtable : gmap Z (string * Z);     (* descriptor ↦ (path, file offset) *)
  next_fd : nat;
  config : bool;                     (* [g] is still in the config state *)
  drives : list string;              (* drives added to [g] *)
  stderr : list diag;
  trace : list syscall;
  script : list outcome
}.

Definition set_files (f : gmap string (list byte)) (w : world) : world :=
  World f (fdtable w) (next_fd w) (config w) (drives w) (stderr w) (trace w) (script w).
Definition set_fdtable (t : gmap Z (string * Z)) (w : world) : world :=
  World (files w) t (next_fd w) (config w) (drives w) (stderr w) (trace w) (script w).
Definition set_next_fd (n : nat) (w : world) : world :=
  World (files w) (fdtable w) n (config w) (drives w) (stderr w) (trace w) (script w).
Definition set_drives (d : list string) (w : world) : world :=
  World (files w) (fdtable w) (next_fd w) (config w) d (stderr w) (trace w) (script w).
Definition set_stderr (e : list diag) (w : world) : world :=
  World (files w) (fdtable w) (next_fd w) (config w) (drives w) e (trace w) (script w).
Definition set_trace (t : list syscall) (w : world) : world :=
  World (files w) (fdtable w) (next_fd w) (config w) (drives w) (stderr w) t (script w).
Definition set_script (s : list outcome) (w : world) : world :=
  World (files w) (fdtable w) (next_fd w) (config w) (drives w) (stderr w) (trace w) s.

(** State passing. *)
Definition M (A : Type) : Type := world -> A * world.

Definition ret {A : Type} (a : A) : M A := fun w => (a, w).

Definition bind {A B : Type} (m : M A) (k : A -> M B) : M B :=
  fun w => let '(a, w') := m w in k a w'.

Notation "'let*' x ':=' m 'in' k" := (bind m (fun x => k))
  (at level 10, x name, m at level 100, k at level 200).
Notation "m ';;' k" := (bind m (fun _ => k))
  (at level 100, k at level 200, right associativity).

(** The environment's answer to the next call. *)
Definition next_outcome : M outcome := fun w =>
  (hd Done (script w), set_script (tl (script w)) w).

Definition failed (o : outcome) : bool :=
  match o with
  | Error _ => true
  | _ => false
  end.

(** How many of [count] bytes a [write] with outcome [o] may take. *)
Definition accepted (o : outcome) (count : Z) : Z :=
  match o with
  | Short k => Z.min (Z.of_N k) count
  | _ => count
  end.

Definition eprint (msgs : list diag) : M unit := fun w =>
  (tt, set_stderr (stderr w ++ msgs) w).

Definition perror (what : string) : M unit := eprint [Perror what].

(** *** File contents *)

Definition zeros (n : nat) : list byte := replicate n x00.

(** Writing [data] at offset [off]: a gap between the end of the file and
    [off] reads as zeros. *)
Definition write_at (content : list byte) (off : nat) (data : list byte) : list byte :=
  take off (content ++ zeros (off - length content)) ++ data
  ++ drop (off + length data) content.

(** *** System calls

    Error numbers as on Linux. *)
Definition EBADF : Z := 9.
Definition EINVAL : Z := 22.
Definition EFBIG : Z := 27.

(** [open (path, O_WRONLY|O_CREAT|O_NOCTTY|O_TRUNC, 0666)]: the file is
    created or truncated, the new descriptor is at offset 0. *)
Definition sys_open (path : string) : M Z :=
  let* o := next_outcome in
  fun w =>
    if failed o then (-1, set_trace (trace w ++ [Open path (-1)]) w)
    else
      let fd := Z.of_nat (next_fd w) in
      (fd, set_trace (trace w ++ [Open path fd])
             (set_next_fd (S (next_fd w))
               (set_fdtable (<[fd := (path, 0)]> (fdtable w))
                 (set_files (<[path := []]> (files w)) w)))).

(** [posix_fallocate (fd, offset, len)]: zero on success, an error number
    (never -1) on failure; on success the file has at least [offset + len]
    bytes. *)
Definition posix_fallocate (fd offset len : Z) : M Z :=
  let* o := next_outcome in
  fun w =>
    let r_w :=
      match o, fdtable w !! fd with
      | Error e, _ => (Z.pos e, w)
      | _, None => (EBADF, w)
      | _, Some (path, _) =>
          if (offset <? 0) || (len <=? 0) then (EINVAL, w)
          else if OFF_MAX <? offset + len then (EFBIG, w)
          else
            let grow c := c ++ zeros (Z.to_nat (offset + len) - length c) in
            (0, set_files (alter grow path (files w)) w)
      end in
    (fst r_w, set_trace (trace w ++ [PosixFallocate fd offset len (fst r_w)]) (snd r_w)).

(** [write (fd, buf, count)]: at most [count] bytes of [buf] go to the file
    at the descriptor's offset, which advances by the number written; a file
    cannot grow beyond the largest offset. *)
Definition sys_write (fd : Z) (buf : list byte) (count : Z) : M Z :=
  let* o := next_outcome in
  fun w =>
    let r_w :=
      match fdtable w !! fd with
      | None => (-1, w)
      | Some (path, off) =>
          let room := OFF_MAX - off in
          if failed o || ((0 <? count) && (room <=? 0)) then (-1, w)
          else
            let r := Z.max 0 (Z.min (accepted o count) room) in
            let data := take (Z.to_nat r) buf in
            (r, set_fdtable (<[fd := (path, off + r)]> (fdtable w))
                  (set_files (alter (fun c => write_at c (Z.to_nat off) data) path (files w)) w))
      end in
    (fst r_w, set_trace (trace w ++ [Write fd count (fst r_w)]) (snd r_w)).

(** [lseek (fd, offset, SEEK_SET)]: a negative offset is refused. *)
Definition sys_lseek (fd offset : Z) : M Z :=
  let* o := next_outcome in
  fun w =>
    let r_w :=
      match fdtable w !! fd with
      | None => (-1, w)
      | Some (path, _) =>
          if failed o || (offset <? 0) then (-1, w)
          else (offset, set_fdtable (<[fd := (path, offset)]> (fdtable w)) w)
      end in
    (fst r_w, set_trace (trace w ++ [Lseek fd offset (fst r_w)]) (snd r_w)).

(** [close (fd)]: the descriptor is released whatever is returned. *)
Definition sys_close (fd : Z) : M Z :=
  let* o := next_outcome in
  fun w =>
    let r :=
      match fdtable w !! fd with
      | None => -1
      | Some _ => if failed o then -1 else 0
      end in
    (r, set_trace (trace w ++ [Close fd r]) (set_fdtable (delete fd (fdtable w)) w)).

(** [unlink (path)]; the handlers ignore what it returns. *)
Definition sys_unlink (path : string) : M unit := fun w =>
  (tt, set_trace (trace w ++ [Unlink path]) (set_files (delete path (files w)) w)).

(** *** The guestfs handle [g] *)

(** Modelled from the spec: [guestfs_is_config] is not in [alloc.c]; the
    drive manager tracks whether drive configuration is still open. *)
Definition guestfs_is_config : M bool := fun w => (config w, w).

(** Modelled from the spec: [guestfs_add_drive] is not in [alloc.c]; it
    adds the path to the registry of drives or fails, and drives can be
    added only while configuration is open. *)
Definition guestfs_add_drive (path : string) : M Z :=
  let* o := next_outcome in
  fun w =>
    if failed o || negb (config w) then (-1, w)
    else (0, set_drives (drives w ++ [path]) w).

(** ** The command handlers *)

(** How the build was configured: whether [HAVE_POSIX_FALLOCATE] is
    defined, and the C library's [BUFSIZ]. *)
Record build : Type := Build {
  HAVE_POSIX_FALLOCATE : bool;
  BUFSIZ : Z
}.

(** The value of an uninitialised local; no path reads it. *)
Definition indeterminate : Z := 0.

(** How a block of statements ends: it falls through, it returns from the
    function, or the bound on the loop's iterations ran out first. *)
Inductive flow : Type :=
| Next
| Return (v : Z)
| OutOfFuel.

(** The [while (remaining > 0)] loop of [do_alloc]; [sizeof_buffer] is
    [sizeof buffer], [fuel] bounds the iterations. *)
Fixpoint write_loop (sizeof_buffer : Z) (file : string) (fd : Z)
    (buffer : list byte) (fuel : nat) (remaining : Z) : M flow :=
  if 0 <? remaining then
    match fuel with
    | O => ret OutOfFuel
    | S fuel' =>
        let n := if sizeof_buffer <? remaining then sizeof_buffer else remaining in
        let* r := sys_write fd buffer n in
        if r =? -1 then
          (perror "write" ;; sys_close fd ;; sys_unlink file ;; ret (Return (-1)))
        else
          write_loop sizeof_buffer file fd buffer fuel' (to_uint64 (remaining - r))
    end
  else ret Next.

(** [do_alloc (cmd, argc, argv)] with [argc] the length of [argv];
    [None] when the write loop did not finish within [fuel] iterations. *)
Definition do_alloc (b : build) (fuel : nat) (argv : list string) : M (option Z) :=
  match argv with
  | [file; size_str] =>
      let p := parse_size size_str indeterminate in
      eprint (p_err p) ;;
      if p_ret p =? -1 then ret (Some (-1)) else
      let size := p_size p in
      let* c := guestfs_is_config in
      if negb c then (eprint [AfterLaunch] ;; ret (Some (-1))) else
      let* fd := sys_open file in
      if fd =? -1 then (perror file ;; ret (Some (-1))) else
      let* f :=
        (if HAVE_POSIX_FALLOCATE b then
           let* r := posix_fallocate fd 0 size in
           if r =? -1 then
             (perror "fallocate" ;; sys_close fd ;; sys_unlink file ;; ret (Return (-1)))
           else ret Next
         else
           let buffer := zeros (Z.to_nat (BUFSIZ b)) in
           write_loop (BUFSIZ b) file fd buffer fuel (to_uint64 size)) in
      match f with
      | Return v => ret (Some v)
      | OutOfFuel => ret None
      | Next =>
          let* r := sys_close fd in
          if r =? -1 then (perror file ;; sys_unlink file ;; ret (Some (-1))) else
          let* r := guestfs_add_drive file in
          if r =? -1 then (sys_unlink file ;; ret (Some (-1))) else
          ret (Some 0)
      end
  | _ => eprint [UsageAlloc] ;; ret (Some (-1))
  end.

(** [do_sparse (cmd, argc, argv)]; the offset [size - 1] is computed in
    [off_t]. *)
Definition do_sparse (argv : list string) : M Z :=
  match argv with
  | [file; size_str] =>
      let c := x00 in
      let p := parse_size size_str indeterminate in
      eprint (p_err p) ;;
      if p_ret p =? -1 then ret (-1) else
      let size := p_size p in
      let* cfg := guestfs_is_config in
      if negb cfg then (eprint [AfterLaunch] ;; ret (-1)) else
      let* fd := sys_open file in
      if fd =? -1 then (perror file ;; ret (-1)) else
      let* r := sys_lseek fd (to_off_t (size - 1)) in
      if r =? -1 then
        (perror "lseek" ;; sys_close fd ;; sys_unlink file ;; ret (-1))
      else
      let* r := sys_write fd [c] 1 in
      if negb (r =? 1) then
        (perror "write" ;; sys_close fd ;; sys_unlink file ;; ret (-1))
      else
      let* r := sys_close fd in
      if r =? -1 then (perror file ;; sys_unlink file ;; ret (-1)) else
      let* r := guestfs_add_drive file in
      if r =? -1 then (sys_unlink file ;; ret (-1)) else
      ret 0
  | _ => eprint [UsageSparse] ;; ret (-1)
  end.

(** A world with nothing in it: no files, configuration open, and an
    environment in which every call goes well. *)
Definition fresh_world : world :=
  World ∅ ∅ 3 true [] [] [] [].

(** The two builds, with glibc's [BUFSIZ]. *)
Definition linux : build := Build true 8192.
Definition portable : build := Build false 8192.

(** Worlds for worked runs: the handle already launched; a full disk, where
    the call after [open] fails with [ENOSPC] (28); a handle that refuses the
    drive after [open], one write and [close] went well; a file system whose
    first [write] takes 100 bytes only. *)
Definition launched_world : world := World ∅ ∅ 3 false [] [] [] [].
Definition full_disk_world : world := set_script [Done; Error 28] fresh_world.
Definition drive_refused_world : world :=
  set_script [Done; Done; Done; Error 5] fresh_world.
Definition short_write_world : world := set_script [Done; Short 100] fresh_world.



(** ** The size-specification grammar, as documented

    [<digits>] and [<digits><suffix-char>], the value of a digit string and
    the table of multipliers. *)

Module Grammar.

Fixpoint all_digits (s : string) : bool :=
  match s with
  | EmptyString => true
  | String c s' => isdigit c && all_digits s'
  end.

(** A non-empty string of decimal digits. *)
Definition digits (s : string) : bool :=
  match s with
  | EmptyString => false
  | String _ _ => all_digits s
  end.

(** The number a digit string denotes, most significant digit first. *)
Fixpoint decimal_value (s : string) : Z :=
  match s with
  | EmptyString => 0
  | String c s' => digit_value c * 10 ^ Z.of_nat (String.length s') + decimal_value s'
  end.

(** The documented multipliers: k/K, m/M, g/G, t/T, p/P, e/E for the powers
    of 1024 and s for 512-byte sectors. *)
Definition multiplier (c : ascii) : option Z :=
  match c with
  | "k" | "K" => Some (1024 ^ 1)
  | "m" | "M" => Some (1024 ^ 2)
  | "g" | "G" => Some (1024 ^ 3)
  | "t" | "T" => Some (1024 ^ 4)
  | "p" | "P" => Some (1024 ^ 5)
  | "e" | "E" => Some (1024 ^ 6)
  | "s" => Some 512
  | _ => None
  end%char.

Fixpoint split_last (s : string) : option (string * ascii) :=
  match s with
  | EmptyString => None
  | String c s' =>
      match split_last s' with
      | None => Some (EmptyString, c)
      | Some (init, l) => Some (String c init, l)
      end
  end.

(** Form 2: digits alone. *)
Definition bare (s : string) : bool := digits s.

(** Form 1: digits followed by one suffix character. *)
Definition suffixed (s : string) : bool :=
  match split_last s with
  | Some (ds, c) => digits ds && bool_decide (is_Some (multiplier c))
  | None => false
  end.

Fixpoint all_space (s : string) : bool :=
  match s with
  | EmptyString => true
  | String c s' => isspace c && all_space s'
  end.

(** What may follow white space, and what may follow the digits. *)
Definition no_space_head (s : string) : Prop :=
  match s with
  | EmptyString => True
  | String c _ => isspace c = false
  end.

Definition no_digit_head (s : string) : Prop :=
  match s with
  | EmptyString => True
  | String c _ => isdigit c = false
  end.

Definition is_sign (sign : string) : Prop :=
  (sign = EmptyString \/ sign = "+" \/ sign = "-")%string.

(** Whether the sign is a minus. *)
Definition negative (sign : string) : bool := String.eqb sign "-".

(** What the scanner takes: white space, an optional sign, digits, and
    then either the end of the string or a suffix character followed by
    anything. *)
Definition loose (str : string) : Prop :=
  exists ws sign ds rest,
    str = (ws +:+ sign +:+ ds +:+ rest)
    /\ all_space ws = true
    /\ is_sign sign
    /\ digits ds = true
    /\ (at_end rest = true
        \/ exists c rest', rest = String c rest' /\ is_Some (multiplier c)).

End Grammar.
Import Grammar.

(** ** The writes of the fallback loop *)

(** [chunked sizeof_buffer fd remaining evs]: [evs] are [write] calls on
    [fd], each asking for the smaller of [sizeof_buffer] and what remains,
    what remains going down by what the call returned; nothing follows a
    failed call. *)
Fixpoint chunked (sizeof_buffer fd remaining : Z) (evs : list syscall) : Prop :=
  match evs with
  | [] => True
  | Write fd' count r :: evs' =>
      fd' = fd /\ 0 < remaining /\ count = Z.min sizeof_buffer remaining
      /\ (r = -1 -> evs' = [])
      /\ chunked sizeof_buffer fd (remaining - r) evs'
  | _ => False
  end.

(** The bytes the [write] calls of a trace report as written. *)
Fixpoint written (evs : list syscall) : Z :=
  match evs with
  | [] => 0
  | Write _ _ r :: evs' => (if r =? -1 then 0 else r) + written evs'
  | _ :: evs' => written evs'
  end.

(** Whether a trace has a successful [open] of [path]. *)
Definition opened (path : string) (evs : list syscall) : Prop :=
  exists fd, 0 <= fd /\ In (Open path fd) evs.

(** No file-system interaction between two worlds: the same files, the same
    descriptors, no call recorded, no answer of the environment used. *)
Definition untouched (w w' : world) : Prop :=
  files w' = files w /\ fdtable w' = fdtable w /\ next_fd w' = next_fd w
  /\ trace w' = trace w /\ script w' = script w /\ drives w' = drives w.

(** ** Vocabulary for further properties *)

(** Whether a string has a decimal digit anywhere. *)
Fixpoint has_digit (s : string) : bool :=
  match s with
  | EmptyString => false
  | String c s' => isdigit c || has_digit s'
  end.

(** Two calls of [parse_size] agree on the status and on the stored size. *)
Definition same_result (p q : parsed) : Prop :=
  p_ret p = p_ret q /\ p_size p = p_size q.

(** A [write] that took all it was given. *)
Definition complete (e : syscall) : Prop :=
  match e with
  | Write _ count r => r = count
  | _ => True
  end.

(** No descriptor is open in [w'] that was not open in [w]. *)
Definition no_new_descriptor (w w' : world) : Prop :=
  forall k v, fdtable w' !! k = Some v -> fdtable w !! k = Some v.

(** * Properties *)

(** ** Fixed-width integers *)

Section IntFacts.

Lemma to_uint64_range z : 0 <= to_uint64 z <= U64_MAX.
Proof. unfold to_uint64, U64_MAX. pose proof (Z.mod_pos_bound z (2 ^ 64)). lia. Qed.

Lemma to_uint64_small z : 0 <= z <= U64_MAX -> to_uint64 z = z.
Proof. unfold to_uint64, U64_MAX. intros. apply Z.mod_small. lia. Qed.

Lemma to_off_t_range z : - 2 ^ 63 <= to_off_t z <= OFF_MAX.
Proof. unfold to_off_t, OFF_MAX. pose proof (Z.mod_pos_bound (z + 2 ^ 63) (2 ^ 64)). lia. Qed.

Lemma to_off_t_small z : - 2 ^ 63 <= z <= OFF_MAX -> to_off_t z = z.
Proof. unfold to_off_t, OFF_MAX. intros. rewrite Z.mod_small; lia. Qed.

Lemma to_off_t_high z : 2 ^ 63 <= z <= U64_MAX -> to_off_t z = z - 2 ^ 64.
Proof.
unfold to_off_t, U64_MAX. intros.
replace (z + 2 ^ 63) with (z - 2 ^ 63 + 1 * 2 ^ 64) by lia.
rewrite Z.mod_add by lia. rewrite Z.mod_small; lia.
Qed.

(** The stored offset and the unsigned value have the same 64 bits. *)
Lemma to_off_t_congr z : to_uint64 (to_off_t z) = to_uint64 z.
Proof.
unfold to_uint64, to_off_t.
rewrite Zminus_mod, Zmod_mod, <- Zminus_mod. f_equal. lia.
Qed.

End IntFacts.

(** ** Worked examples of [parse_size] *)

Example parse_size_10 : parse_size "10" 7 = Parsed 0 10240 [].
Proof. reflexivity. Qed.

Example parse_size_1K : parse_size "1K" 7 = Parsed 0 1024 [].
Proof. reflexivity. Qed.

Example parse_size_2M : parse_size "2M" 7 = Parsed 0 (2 * 1024 ^ 2) [].
Proof. reflexivity. Qed.

Example parse_size_1s : parse_size "1s" 7 = Parsed 0 512 [].
Proof. reflexivity. Qed.

Example parse_size_1S : parse_size "1S" 7 = Parsed (-1) 7 [BadSize "1S"].
Proof. reflexivity. Qed.

Example parse_size_abc : parse_size "abc" 7 = Parsed (-1) 7 [BadSize "abc"].
Proof. reflexivity. Qed.

Example parse_size_16e : parse_size "16e" 7 = Parsed 0 0 [].
Proof. reflexivity. Qed.

Example parse_size_8e : parse_size "8e" 7 = Parsed 0 (- 2 ^ 63) [].
Proof. reflexivity. Qed.

Example parse_size_10kB : parse_size "10kB" 7 = Parsed 0 10240 [].
Proof. reflexivity. Qed.

Example parse_size_minus1 : parse_size " -1" 7 = Parsed 0 (-1024) [].
Proof. reflexivity. Qed.

(** ** The scanner *)

Section ScanFacts.

Lemma digit_char c :
  isdigit c = true ->
  isspace c = false /\ Ascii.eqb c "-" = false /\ Ascii.eqb c "+" = false
  /\ Ascii.eqb c NUL = false /\ multiplier c = None
  /\ 0 <= digit_value c <= 9.
Proof.
  destruct c as [[] [] [] [] [] [] [] []]; vm_compute; intros H;
    try discriminate H; repeat split; congruence.
Qed.

Lemma suffix_char c :
  is_Some (multiplier c) ->
  isdigit c = false /\ Ascii.eqb c NUL = false.
Proof.
  intros [m Hm]. revert Hm.
  destruct c as [[] [] [] [] [] [] [] []]; vm_compute; intros H;
    try discriminate H; split; reflexivity.
Qed.

Lemma switch_type_multiplier c size :
  switch_type c size = (fun m => to_uint64 (size * m)) <$> multiplier c.
Proof. destruct c as [[] [] [] [] [] [] [] []]; reflexivity. Qed.

Lemma at_end_no_digit s : at_end s = true -> no_digit_head s.
Proof.
  destruct s as [|c s]; simpl; [trivial|].
  intros H. apply Ascii.eqb_eq in H. subst c. reflexivity.
Qed.

Lemma app_nil_s (b : string) : EmptyString +:+ b = b.
Proof. reflexivity. Qed.

Lemma app_cons_s c (a b : string) : String c a +:+ b = String c (a +:+ b).
Proof. reflexivity. Qed.

Lemma app_assoc_s (a b c : string) : (a +:+ b) +:+ c = a +:+ b +:+ c.
Proof.
  induction a as [|x a IH]; [reflexivity|].
  rewrite !app_cons_s. now rewrite IH.
Qed.

Lemma app_empty_r (a : string) : a +:+ EmptyString = a.
Proof.
  induction a as [|x a IH]; [reflexivity|]. rewrite app_cons_s. now rewrite IH.
Qed.

Lemma length_app_s (a b : string) :
  String.length (a +:+ b) = (String.length a + String.length b)%nat.
Proof.
  induction a as [|x a IH]; [reflexivity|].
  rewrite app_cons_s. simpl. now rewrite IH.
Qed.

Lemma decimal_value_nonneg ds : all_digits ds = true -> 0 <= decimal_value ds.
Proof.
  induction ds as [|c ds IH]; simpl; [lia|].
  intros H. apply andb_prop in H as [Hc Hds].
  destruct (digit_char c Hc) as (_ & _ & _ & _ & _ & Hv).
  specialize (IH Hds).
  assert (0 <= 10 ^ Z.of_nat (String.length ds)) by (apply Z.pow_nonneg; lia).
  nia.
Qed.

(** The accumulator loop computes the positional value. *)
Lemma scan_digits_app ds rest acc :
  all_digits ds = true -> no_digit_head rest ->
  scan_digits acc (ds +:+ rest)
  = (acc * 10 ^ Z.of_nat (String.length ds) + decimal_value ds, rest).
Proof.
  revert acc. induction ds as [|c ds IH]; intros acc Hds Hrest.
  - rewrite app_nil_s. cbn [String.length decimal_value].
    change (10 ^ Z.of_nat 0) with 1. replace (acc * 1 + 0) with acc by lia.
    destruct rest as [|c rest]; simpl in *; [reflexivity | now rewrite Hrest].
  - simpl in Hds. apply andb_prop in Hds as [Hc Hds].
    rewrite app_cons_s. cbn [scan_digits]. rewrite Hc, (IH _ Hds Hrest).
    f_equal. cbn [decimal_value String.length].
    rewrite Nat2Z.inj_succ, Z.pow_succ_r by lia. ring.
Qed.

Lemma scan_digits_split s acc :
  exists ds,
    s = ds +:+ snd (scan_digits acc s)
    /\ all_digits ds = true
    /\ no_digit_head (snd (scan_digits acc s)).
Proof.
  revert acc. induction s as [|c s IH]; intros acc.
  - exists EmptyString. simpl. auto.
  - simpl. destruct (isdigit c) eqn:Hc.
    + destruct (IH (acc * 10 + digit_value c)) as (ds & Hs & Hds & Hh).
      exists (String c ds). rewrite app_cons_s. simpl. rewrite Hc, Hds.
      split; [congruence | auto].
    + exists EmptyString. simpl. auto.
Qed.

Lemma skip_space_app ws s :
  all_space ws = true -> no_space_head s -> skip_space (ws +:+ s) = s.
Proof.
  intros Hws Hs. induction ws as [|c ws IH].
  - rewrite app_nil_s. destruct s as [|c s]; simpl in *; [reflexivity | now rewrite Hs].
  - simpl in Hws. apply andb_prop in Hws as [Hc Hws].
    rewrite app_cons_s. simpl. rewrite Hc. auto.
Qed.

Lemma skip_space_split s :
  exists ws, s = ws +:+ skip_space s /\ all_space ws = true
    /\ no_space_head (skip_space s).
Proof.
  induction s as [|c s IH].
  - exists EmptyString. simpl. auto.
  - simpl. destruct (isspace c) eqn:Hc.
    + destruct IH as (ws & Hs & Hws & Hh).
      exists (String c ws). rewrite app_cons_s. simpl. rewrite Hc, Hws.
      split; [congruence | auto].
    + exists EmptyString. simpl. rewrite Hc. auto.
Qed.

(** The conversion on white space, sign, digits, and a rest that does not
    go on with a digit. *)
Lemma scan_u64_loose ws sign ds rest :
  all_space ws = true -> is_sign sign -> digits ds = true -> no_digit_head rest ->
  scan_u64 (ws +:+ sign +:+ ds +:+ rest)
  = Converted (strtoull_value (negative sign) (decimal_value ds)) rest.
Proof.
  intros Hws Hsign Hds Hrest.
  destruct ds as [|d ds]; [discriminate|]. simpl in Hds.
  pose proof Hds as Hds'. apply andb_prop in Hds' as [Hd _].
  destruct (digit_char d Hd) as (Hsp & Hm & Hp & Hn & _ & _).
  assert (Hscan : scan_digits 0 (String d ds +:+ rest)
                  = (decimal_value (String d ds), rest)).
  { rewrite (scan_digits_app (String d ds) rest 0) by assumption. f_equal. }
  unfold scan_u64.
  destruct Hsign as [-> | [-> | ->]]; rewrite ?app_cons_s, ?app_nil_s in *.
  - rewrite skip_space_app by (assumption || exact Hsp).
    cbn [at_end]. rewrite Hn, Hm, Hp, Hd, Hscan. reflexivity.
  - rewrite skip_space_app by (assumption || reflexivity).
    cbn [at_end]. replace (Ascii.eqb "+" NUL) with false by reflexivity.
    replace (Ascii.eqb "+" "-") with false by reflexivity.
    replace (Ascii.eqb "+" "+") with true by reflexivity.
    rewrite Hd, Hscan. reflexivity.
  - rewrite skip_space_app by (assumption || reflexivity).
    cbn [at_end]. replace (Ascii.eqb "-" NUL) with false by reflexivity.
    replace (Ascii.eqb "-" "-") with true by reflexivity.
    rewrite Hd, Hscan. reflexivity.
Qed.

End ScanFacts.

(** ** [parse_size] *)

Section ParseSizeFacts.

Lemma scan_u64_inv str v rest :
  scan_u64 str = Converted v rest ->
  exists ws sign ds,
    str = ws +:+ sign +:+ ds +:+ rest
    /\ all_space ws = true /\ is_sign sign /\ digits ds = true
    /\ no_digit_head rest
    /\ v = strtoull_value (negative sign) (decimal_value ds).
Proof.
  unfold scan_u64.
  destruct (skip_space_split str) as (ws & Hstr & Hws & _).
  destruct (skip_space str) as [|c t] eqn:Hs1; [discriminate|].
  cbn [at_end]. destruct (Ascii.eqb c NUL) eqn:Hnul; [discriminate|].
  assert (Hdig : forall s2 d s3, s2 = String d s3 -> isdigit d = true ->
            exists ds, s2 = ds +:+ snd (scan_digits 0 s2) /\ digits ds = true
              /\ no_digit_head (snd (scan_digits 0 s2))
              /\ fst (scan_digits 0 s2) = decimal_value ds).
  { intros s2 d s3 -> Hd.
    destruct (scan_digits_split (String d s3) 0) as (ds & Hsplit & Hds & Hh).
    exists ds. split; [exact Hsplit|].
    assert (Hne : digits ds = true).
    { destruct ds as [|x ds]; [|exact Hds].
      rewrite app_nil_s in Hsplit. rewrite <- Hsplit in Hh.
      simpl in Hh. congruence. }
    repeat split; try assumption.
    rewrite Hsplit at 1. rewrite scan_digits_app by assumption.
    cbn [fst]. lia. }
  destruct (Ascii.eqb c "-") eqn:Hminus.
  { apply Ascii.eqb_eq in Hminus. subst c.
    destruct t as [|d t']; [discriminate|].
    destruct (isdigit d) eqn:Hd; [|discriminate].
    destruct (Hdig (String d t') d t' eq_refl Hd) as (ds & Hsplit & Hds & Hh & Hv).
    destruct (scan_digits 0 (String d t')) as [v0 r0]. cbn [fst snd] in *.
    intros [= <- <-]. exists ws, "-"%string, ds.
    rewrite Hstr, Hsplit at 1. rewrite Hv.
    repeat split; auto. unfold is_sign. auto. }
  destruct (Ascii.eqb c "+") eqn:Hplus.
  { apply Ascii.eqb_eq in Hplus. subst c.
    destruct t as [|d t']; [discriminate|].
    destruct (isdigit d) eqn:Hd; [|discriminate].
    destruct (Hdig (String d t') d t' eq_refl Hd) as (ds & Hsplit & Hds & Hh & Hv).
    destruct (scan_digits 0 (String d t')) as [v0 r0]. cbn [fst snd] in *.
    intros [= <- <-]. exists ws, "+"%string, ds.
    rewrite Hstr, Hsplit at 1. rewrite Hv.
    repeat split; auto. unfold is_sign. auto. }
  destruct (isdigit c) eqn:Hd; [|discriminate].
  destruct (Hdig (String c t) c t eq_refl Hd) as (ds & Hsplit & Hds & Hh & Hv).
  destruct (scan_digits 0 (String c t)) as [v0 r0]. cbn [fst snd] in *.
  intros [= <- <-]. exists ws, EmptyString, ds.
  rewrite Hstr, Hsplit at 1. rewrite Hv, app_nil_s.
  repeat split; auto. unfold is_sign. auto.
Qed.

(** The tests [== 2] and [== 1] on what [sscanf] returns single out the
    outcomes with two and with one item assigned. *)
Lemma items_two r : items r = 2 <-> exists size type, r = Scan2 size type.
Proof.
  split; [|intros (size & type & ->); reflexivity].
  destruct r; try discriminate. eauto.
Qed.

Lemma items_one r : items r = 1 <-> exists size, r = Scan1 size.
Proof.
  split; [|intros (size & ->); reflexivity].
  destruct r; try discriminate. eauto.
Qed.

(** [parse_size] in terms of the one conversion both [sscanf] calls make. *)
Lemma parse_size_scan str old :
  parse_size str old =
  match scan_u64 str with
  | Converted v rest =>
      if at_end rest then Parsed 0 (to_off_t (to_uint64 (v * 1024))) []
      else match rest with
           | String c _ =>
               match switch_type c v with
               | Some size' => Parsed 0 (to_off_t size') []
               | None => Parsed (-1) old [BadSize str]
               end
           | EmptyString => Parsed (-1) old [BadSize str]
           end
  | _ => Parsed (-1) old [BadSize str]
  end.
Proof.
  unfold parse_size, sscanf_u64_c, sscanf_u64.
  destruct (scan_u64 str) as [| |v rest]; try reflexivity.
  destruct rest as [|c rest]; [reflexivity|].
  destruct (at_end (String c rest)); reflexivity.
Qed.

Lemma parse_size_status str old :
  p_ret (parse_size str old) = 0 \/ p_ret (parse_size str old) = -1.
Proof.
  rewrite parse_size_scan.
  destruct (scan_u64 str) as [| |v rest]; auto.
  destruct (at_end rest); auto.
  destruct rest as [|c rest]; auto.
  destruct (switch_type c v); auto.
Qed.

Lemma parse_size_failure str old :
  p_ret (parse_size str old) = -1 ->
  parse_size str old = Parsed (-1) old [BadSize str].
Proof.
  rewrite parse_size_scan.
  destruct (scan_u64 str) as [| |v rest]; auto.
  destruct (at_end rest); [discriminate|].
  destruct rest as [|c rest]; auto.
  destruct (switch_type c v); [discriminate|auto].
Qed.

Lemma parse_size_off_t str old :
  p_ret (parse_size str old) = 0 ->
  - 2 ^ 63 <= p_size (parse_size str old) <= OFF_MAX.
Proof.
  rewrite parse_size_scan.
  destruct (scan_u64 str) as [| |v rest]; try discriminate.
  destruct (at_end rest); [intros _; apply to_off_t_range|].
  destruct rest as [|c rest]; try discriminate.
  destruct (switch_type c v); [intros _; apply to_off_t_range|discriminate].
Qed.

Lemma strtoull_in_range v : 0 <= v <= U64_MAX -> strtoull_value false v = v.
Proof.
  intros H. unfold strtoull_value.
  destruct (U64_MAX <? v) eqn:E; [apply Z.ltb_lt in E; lia | reflexivity].
Qed.

Lemma parse_size_bare_eq ds old :
  digits ds = true -> decimal_value ds <= U64_MAX ->
  parse_size ds old = Parsed 0 (to_off_t (to_uint64 (decimal_value ds * 1024))) [].
Proof.
  intros Hds Hv.
  assert (Hnn : 0 <= decimal_value ds).
  { apply decimal_value_nonneg. destruct ds; [discriminate | exact Hds]. }
  rewrite parse_size_scan.
  pose proof (scan_u64_loose EmptyString EmptyString ds EmptyString eq_refl (or_introl eq_refl) Hds I) as H.
  rewrite !app_nil_s, app_empty_r in H. rewrite H.
  cbn [at_end negative String.eqb]. rewrite strtoull_in_range by lia. reflexivity.
Qed.

Lemma parse_size_suffix_eq ds c rest m old :
  digits ds = true -> decimal_value ds <= U64_MAX -> multiplier c = Some m ->
  parse_size (ds +:+ String c rest) old
  = Parsed 0 (to_off_t (to_uint64 (decimal_value ds * m))) [].
Proof.
  intros Hds Hv Hm.
  assert (Hnn : 0 <= decimal_value ds).
  { apply decimal_value_nonneg. destruct ds; [discriminate | exact Hds]. }
  destruct (suffix_char c) as [Hnd Hnn0]; [eauto|].
  rewrite parse_size_scan.
  pose proof (scan_u64_loose EmptyString EmptyString ds (String c rest) eq_refl (or_introl eq_refl) Hds Hnd) as H.
  rewrite !app_nil_s in H. rewrite H.
  cbn [at_end negative String.eqb]. rewrite Hnn0, strtoull_in_range by lia.
  rewrite switch_type_multiplier, Hm. reflexivity.
Qed.

Lemma parse_size_bad_suffix ds c rest old :
  digits ds = true -> multiplier c = None -> isdigit c = false -> c <> NUL ->
  parse_size (ds +:+ String c rest) old
  = Parsed (-1) old [BadSize (ds +:+ String c rest)].
Proof.
  intros Hds Hm Hnd Hc.
  rewrite parse_size_scan.
  pose proof (scan_u64_loose EmptyString EmptyString ds (String c rest) eq_refl (or_introl eq_refl) Hds Hnd) as H.
  rewrite !app_nil_s in H. rewrite H.
  cbn [at_end]. apply Ascii.eqb_neq in Hc. rewrite Hc.
  rewrite switch_type_multiplier, Hm. reflexivity.
Qed.

Lemma multiplier_bounds c m : multiplier c = Some m -> 512 <= m <= 1024 ^ 6.
Proof.
  destruct c as [[] [] [] [] [] [] [] []]; cbn [multiplier]; intros H;
    try discriminate H; injection H as <-; lia.
Qed.

(** Below 2^63 nothing wraps: the stored size is the product. *)
Lemma stored_product v m :
  0 <= v -> 0 < m -> v * m <= OFF_MAX -> to_off_t (to_uint64 (v * m)) = v * m.
Proof.
  intros Hv Hm Hp.
  rewrite to_uint64_small by (unfold U64_MAX, OFF_MAX in *; nia).
  apply to_off_t_small. unfold OFF_MAX in *. nia.
Qed.

Lemma digits_nonneg ds : digits ds = true -> 0 <= decimal_value ds.
Proof.
  intros Hds. apply decimal_value_nonneg. destruct ds; [discriminate | exact Hds].
Qed.

Lemma parse_size_bare_exact ds old :
  digits ds = true -> decimal_value ds * 1024 <= OFF_MAX ->
  p_size (parse_size ds old) = decimal_value ds * 1024.
Proof.
  intros Hds Hp. pose proof (digits_nonneg ds Hds) as Hnn.
  rewrite parse_size_bare_eq by (unfold U64_MAX, OFF_MAX in *; auto; lia).
  cbn [p_size]. apply stored_product; lia.
Qed.

Lemma parse_size_suffix_exact ds c m old :
  digits ds = true -> multiplier c = Some m -> decimal_value ds * m <= OFF_MAX ->
  p_size (parse_size (ds +:+ String c EmptyString) old) = decimal_value ds * m.
Proof.
  intros Hds Hm Hp. pose proof (digits_nonneg ds Hds) as Hnn.
  pose proof (multiplier_bounds c m Hm) as Hb.
  rewrite (parse_size_suffix_eq ds c EmptyString m old) by (unfold U64_MAX, OFF_MAX in *; auto; nia).
  cbn [p_size]. apply stored_product; lia.
Qed.

Lemma split_last_app s ds c :
  split_last s = Some (ds, c) -> s = ds +:+ String c EmptyString.
Proof.
  revert ds c. induction s as [|x s IH]; intros ds c; [discriminate|].
  simpl. destruct (split_last s) as [[init l]|] eqn:E.
  - intros [= <- <-]. rewrite app_cons_s. f_equal. apply IH. reflexivity.
  - intros [= <- <-]. destruct s as [|y s]; [reflexivity|].
    simpl in E. destruct (split_last s) as [[? ?]|]; discriminate.
Qed.

Lemma bare_loose s : bare s = true -> loose s.
Proof.
  intros H. exists EmptyString, EmptyString, s, EmptyString.
  rewrite !app_nil_s, app_empty_r. unfold bare in H. unfold is_sign. auto 10.
Qed.

Lemma suffixed_loose s : suffixed s = true -> loose s.
Proof.
  unfold suffixed. destruct (split_last s) as [[ds c]|] eqn:E; [|discriminate].
  intros H. apply andb_prop in H as [Hds Hc]. apply bool_decide_eq_true in Hc.
  apply split_last_app in E. subst s.
  exists EmptyString, EmptyString, ds, (String c EmptyString).
  rewrite !app_nil_s. unfold is_sign. repeat split; auto. right. eauto.
Qed.

(** The strings [parse_size] takes are those of the loose grammar. *)
Lemma parse_size_accepts str old :
  p_ret (parse_size str old) = 0 <-> loose str.
Proof.
  split.
  - rewrite parse_size_scan.
    destruct (scan_u64 str) as [| |v rest] eqn:Hscan; try discriminate.
    destruct (scan_u64_inv _ _ _ Hscan) as (ws & sign & ds & Hstr & Hws & Hsign & Hds & _ & _).
    destruct (at_end rest) eqn:Hend.
    + intros _. exists ws, sign, ds, rest. auto 10.
    + destruct rest as [|c rest']; [discriminate|].
      rewrite switch_type_multiplier.
      destruct (multiplier c) as [m|] eqn:Hm; [|discriminate].
      intros _. exists ws, sign, ds, (String c rest').
      repeat split; auto. right. exists c, rest'. split; [reflexivity | eauto].
  - intros (ws & sign & ds & rest & -> & Hws & Hsign & Hds & Hrest).
    rewrite parse_size_scan.
    destruct Hrest as [Hend | (c & rest' & -> & Hc)].
    + rewrite scan_u64_loose by auto using at_end_no_digit.
      rewrite Hend. reflexivity.
    + destruct (suffix_char c Hc) as [Hnd Hnn].
      rewrite scan_u64_loose by auto.
      cbn [at_end]. rewrite Hnn, switch_type_multiplier.
      destruct Hc as [m ->]. reflexivity.
Qed.

End ParseSizeFacts.

(** ** Claims about [parse_size] *)

(** C1, as amended: for a string made of digits, of value below 2^64, and
    one suffix character of the table, [parse_size] succeeds and stores the
    value times the suffix's multiplier, reduced modulo 2^64 and read as a
    signed 64-bit offset; this is the exact product whenever the product is
    at most 2^63 - 1.  Any other character after the digits (not a digit,
    not the terminator), upper-case S included, is refused with the
    size-specification diagnostic and the caller's location untouched. *)
Theorem parse_size_suffixed ds c old :
  digits ds = true -> decimal_value ds <= U64_MAX ->
  (forall m, multiplier c = Some m ->
     parse_size (ds +:+ String c EmptyString) old
     = Parsed 0 (to_off_t (to_uint64 (decimal_value ds * m))) []
     /\ (decimal_value ds * m <= OFF_MAX ->
         p_size (parse_size (ds +:+ String c EmptyString) old) = decimal_value ds * m))
  /\ (multiplier c = None -> isdigit c = false -> c <> NUL ->
      parse_size (ds +:+ String c EmptyString) old
      = Parsed (-1) old [BadSize (ds +:+ String c EmptyString)])
  /\ parse_size (ds +:+ "S") old = Parsed (-1) old [BadSize (ds +:+ "S")].
Proof.
  intros Hds Hv. split; [|split].
  - intros m Hm. split.
    + now apply parse_size_suffix_eq.
    + intros Hp. now apply parse_size_suffix_exact.
  - intros Hm Hnd Hc. now apply parse_size_bad_suffix.
  - apply parse_size_bad_suffix; [assumption | reflexivity | reflexivity | discriminate].
Qed.

Lemma parse_size_suffixed_witness :
  parse_size "2M" 7 = Parsed 0 (2 * 1024 ^ 2) []
  /\ parse_size "2S" 7 = Parsed (-1) 7 [BadSize "2S"].
Proof.
  assert (Hd : digits "2" = true) by reflexivity.
  assert (Hv : decimal_value "2" <= U64_MAX) by (vm_compute; discriminate).
  destruct (parse_size_suffixed "2" "M" 7 Hd Hv) as (Hok & _ & Hbad).
  split; [exact (proj1 (Hok (1024 ^ 2) eq_refl)) | exact Hbad].
Defined.

(** C1 as stated fails: "16e" has the product 2^64 and yields 0, "8e" has
    the product 2^63 and yields -2^63. *)
Lemma parse_size_suffixed_not_exact :
  (digits "16" = true /\ decimal_value "16" <= U64_MAX
   /\ multiplier "e" = Some (1024 ^ 6)
   /\ parse_size "16e" 7 = Parsed 0 0 []
   /\ decimal_value "16" * 1024 ^ 6 <> 0)
  /\ (digits "8" = true /\ decimal_value "8" <= U64_MAX
      /\ parse_size "8e" 7 = Parsed 0 (- 2 ^ 63) []
      /\ decimal_value "8" * 1024 ^ 6 <> - 2 ^ 63).
Proof. vm_compute. repeat split; discriminate. Qed.

(** C2, as amended: for a string of digits alone, of value below 2^64,
    [parse_size] succeeds and stores the value times 1024, reduced modulo
    2^64 and read as a signed 64-bit offset; this is the exact product
    whenever the product is at most 2^63 - 1, and "10" gives 10240. *)
Theorem parse_size_bare ds old :
  digits ds = true -> decimal_value ds <= U64_MAX ->
  parse_size ds old = Parsed 0 (to_off_t (to_uint64 (decimal_value ds * 1024))) []
  /\ (decimal_value ds * 1024 <= OFF_MAX ->
      p_size (parse_size ds old) = decimal_value ds * 1024)
  /\ parse_size "10" old = Parsed 0 10240 [].
Proof.
  intros Hds Hv. split; [now apply parse_size_bare_eq|].
  split; [|reflexivity].
  intros Hp. now apply parse_size_bare_exact.
Qed.

Lemma parse_size_bare_witness : parse_size "4096" 7 = Parsed 0 (4096 * 1024) [].
Proof.
  assert (Hd : digits "4096" = true) by reflexivity.
  assert (Hv : decimal_value "4096" <= U64_MAX) by (vm_compute; discriminate).
  exact (proj1 (parse_size_bare "4096" 7 Hd Hv)).
Defined.

(** C2 as stated fails: 18014398509481984 is 2^54, its product with 1024 is
    2^64 and the stored size is 0. *)
Lemma parse_size_bare_not_exact :
  digits "18014398509481984" = true
  /\ parse_size "18014398509481984" 7 = Parsed 0 0 []
  /\ decimal_value "18014398509481984" * 1024 <> 0.
Proof. vm_compute. repeat split; discriminate. Qed.

(** C3, as amended: [parse_size] fails, with the size-specification
    diagnostic, exactly on the strings outside the loose grammar of the
    scanner (optional white space, optional sign, digits, then the end of the
    string or a suffix character followed by anything); every string of the
    two documented forms is taken, and its byte count is non-negative and
    exact whenever the product is at most 2^63 - 1; when the first scan
    assigns both items the suffix switch alone decides, the second scan is
    not tried. *)
Theorem parse_size_fails_iff str old :
  (p_ret (parse_size str old) = -1 <-> ~ loose str)
  /\ (p_ret (parse_size str old) = -1 ->
      parse_size str old = Parsed (-1) old [BadSize str])
  /\ (bare str = true \/ suffixed str = true -> p_ret (parse_size str old) = 0)
  /\ (bare str = true -> decimal_value str * 1024 <= OFF_MAX ->
      p_size (parse_size str old) = decimal_value str * 1024
      /\ 0 <= p_size (parse_size str old))
  /\ (forall ds c m, split_last str = Some (ds, c) -> digits ds = true ->
      multiplier c = Some m -> decimal_value ds * m <= OFF_MAX ->
      p_size (parse_size str old) = decimal_value ds * m
      /\ 0 <= p_size (parse_size str old))
  /\ (forall size type, sscanf_u64_c str = Scan2 size type ->
      parse_size str old =
      match switch_type type size with
      | Some size' => Parsed 0 (to_off_t size') []
      | None => Parsed (-1) old [BadSize str]
      end).
Proof.
  assert (Hacc := parse_size_accepts str old).
  assert (Hst := parse_size_status str old).
  repeat apply conj.
  - intros H Hl. apply Hacc in Hl. lia.
  - intros Hn. destruct Hst as [H0 | H1]; [|exact H1].
    exfalso. apply Hn, Hacc, H0.
  - apply parse_size_failure.
  - intros [H | H]; apply Hacc; [now apply bare_loose | now apply suffixed_loose].
  - intros Hb Hp. unfold bare in Hb.
    pose proof (digits_nonneg str Hb) as Hnn.
    rewrite (parse_size_bare_exact str old Hb Hp). lia.
  - intros ds c m Hsplit Hds Hm Hp.
    apply split_last_app in Hsplit. subst str.
    pose proof (digits_nonneg ds Hds) as Hnn.
    pose proof (multiplier_bounds c m Hm) as Hb.
    rewrite (parse_size_suffix_exact ds c m old Hds Hm Hp). nia.
  - intros size type Hscan. unfold parse_size. rewrite Hscan. reflexivity.
Qed.

Lemma parse_size_fails_iff_witness :
  ~ loose "abc" /\ parse_size "abc" 7 = Parsed (-1) 7 [BadSize "abc"]
  /\ p_ret (parse_size "12g" 7) = 0.
Proof.
  destruct (parse_size_fails_iff "abc" 7) as ([Hnl _] & Hfail & _).
  destruct (parse_size_fails_iff "12g" 7) as (_ & _ & Hok & _).
  split; [exact (Hnl eq_refl)|].
  split; [exact (Hfail eq_refl) | exact (Hok (or_intror eq_refl))].
Defined.

(** C3 as stated fails: "10kB" is of neither form and is taken; "8e" is of
    the suffixed form and its byte count is negative. *)
Lemma parse_size_looser_than_forms :
  (bare "10kB" = false /\ suffixed "10kB" = false
   /\ parse_size "10kB" 7 = Parsed 0 10240 [])
  /\ (suffixed "8e" = true /\ p_ret (parse_size "8e" 7) = 0
      /\ p_size (parse_size "8e" 7) < 0).
Proof. vm_compute. repeat split; reflexivity. Qed.

(** C4, as amended: there is no overflow check.  When the product of the
    digits' value (below 2^64) and the suffix's multiplier exceeds 2^64 - 1,
    [parse_size] still succeeds; it stores the product reduced modulo 2^64
    and read as a signed 64-bit offset, so the stored size is congruent to
    the product modulo 2^64 and lies between -2^63 and 2^63 - 1. *)
Theorem parse_size_wraps ds c m old :
  digits ds = true -> decimal_value ds <= U64_MAX ->
  multiplier c = Some m -> U64_MAX < decimal_value ds * m ->
  parse_size (ds +:+ String c EmptyString) old
  = Parsed 0 (to_off_t ((decimal_value ds * m) mod 2 ^ 64)) []
  /\ to_uint64 (p_size (parse_size (ds +:+ String c EmptyString) old))
     = (decimal_value ds * m) mod 2 ^ 64
  /\ - 2 ^ 63 <= p_size (parse_size (ds +:+ String c EmptyString) old) <= OFF_MAX.
Proof.
  intros Hds Hv Hm _.
  rewrite (parse_size_suffix_eq ds c EmptyString m old Hds Hv Hm). cbn [p_size].
  split; [reflexivity|]. split; [|apply to_off_t_range].
  rewrite to_off_t_congr. unfold to_uint64. apply Zmod_mod.
Qed.

Lemma parse_size_wraps_witness : parse_size "16e" 7 = Parsed 0 0 [].
Proof.
  assert (Hd : digits "16" = true) by reflexivity.
  assert (Hv : decimal_value "16" <= U64_MAX) by (vm_compute; discriminate).
  assert (Hp : U64_MAX < decimal_value "16" * 1024 ^ 6) by reflexivity.
  exact (proj1 (parse_size_wraps "16" "e" (1024 ^ 6) 7 Hd Hv eq_refl Hp)).
Defined.

(** C4 as stated fails: for "24e" the product reduced modulo 2^64 is 2^63,
    the stored size is -2^63. *)
Lemma parse_size_wraps_signed :
  digits "24" = true /\ decimal_value "24" <= U64_MAX
  /\ multiplier "e" = Some (1024 ^ 6)
  /\ U64_MAX < decimal_value "24" * 1024 ^ 6
  /\ (decimal_value "24" * 1024 ^ 6) mod 2 ^ 64 = 2 ^ 63
  /\ parse_size "24e" 7 = Parsed 0 (- 2 ^ 63) []
  /\ p_size (parse_size "24e" 7) <> (decimal_value "24" * 1024 ^ 6) mod 2 ^ 64.
Proof. vm_compute. repeat split; discriminate. Qed.

(** C10: when [parse_size] fails, the content of the caller's location is
    what it was before the call. *)
Theorem parse_size_failure_keeps_size str old :
  p_ret (parse_size str old) = -1 -> p_size (parse_size str old) = old.
Proof. intros H. rewrite (parse_size_failure str old H). reflexivity. Qed.

Lemma parse_size_failure_keeps_size_witness : p_size (parse_size "1S" 7) = 7.
Proof. exact (parse_size_failure_keeps_size "1S" 7 eq_refl). Defined.

(** Projections of updated worlds. *)
Ltac world_simpl :=
  cbn [files fdtable next_fd config drives stderr trace script
       set_files set_fdtable set_next_fd set_drives set_stderr set_trace set_script
       fst snd] in *.

(** Traces as right-nested lists. *)
Ltac trace_norm := repeat first [rewrite <- app_assoc | progress cbn [app]].

(** ** File contents and system calls *)

Section WorldFacts.

Lemma zeros_add a b : zeros (a + b) = zeros a ++ zeros b.
Proof. apply replicate_add. Qed.

Lemma take_zeros n m : (n <= m)%nat -> take n (zeros m) = zeros n.
Proof. intros H. unfold zeros. rewrite take_replicate. f_equal. lia. Qed.

Lemma length_zeros n : length (zeros n) = n.
Proof. apply length_replicate. Qed.

(** Appending to a file of zeros at its end. *)
Lemma write_at_end a r : write_at (zeros a) a (zeros r) = zeros (a + r).
Proof.
  unfold write_at. rewrite !length_zeros, Nat.sub_diag.
  change (zeros 0) with (@nil byte). rewrite app_nil_r.
  rewrite take_ge by (rewrite length_zeros; lia).
  rewrite drop_ge by (rewrite length_zeros; lia).
  rewrite app_nil_r. symmetry. apply zeros_add.
Qed.

(** Writing past the end of an empty file leaves a hole of zeros. *)
Lemma write_at_empty n data : write_at [] n data = zeros n ++ data.
Proof.
  unfold write_at. cbn [length app]. rewrite Nat.sub_0_r, drop_nil, app_nil_r.
  rewrite take_ge by (rewrite length_zeros; lia). reflexivity.
Qed.

Lemma accepted_le o n : accepted o n <= n.
Proof. destruct o; simpl; lia. Qed.

Lemma of_nat_not_m1 n : (Z.of_nat n =? -1) = false.
Proof. apply Z.eqb_neq. lia. Qed.

(** What a [write] on an open descriptor does. *)
Lemma sys_write_spec fd buf n w path off r w' :
  fdtable w !! fd = Some (path, off) ->
  sys_write fd buf n w = (r, w') ->
  trace w' = trace w ++ [Write fd n r]
  /\ config w' = config w /\ drives w' = drives w /\ stderr w' = stderr w
  /\ script w' = tl (script w)
  /\ ((r = -1 /\ files w' = files w /\ fdtable w' = fdtable w)
      \/ (0 <= r /\ r <= Z.max 0 n
          /\ (0 < n -> off + r <= OFF_MAX)
          /\ (0 < n -> script w = [] -> 0 < r)
          /\ files w' = alter (fun c => write_at c (Z.to_nat off) (take (Z.to_nat r) buf))
                          path (files w)
          /\ fdtable w' = <[fd := (path, off + r)]> (fdtable w))).
Proof.
  intros Hfd. unfold sys_write, bind, next_outcome.
  world_simpl. rewrite Hfd.
  destruct (failed (hd Done (script w)) || ((0 <? n) && (OFF_MAX - off <=? 0))) eqn:Hc.
  - intros [= <- <-]. world_simpl. repeat split; auto.
  - intros [= <- <-]. world_simpl.
    apply orb_false_elim in Hc as [Hf Hroom].
    pose proof (accepted_le (hd Done (script w)) n) as Hacc.
    assert (Hr : 0 < n -> 0 < OFF_MAX - off).
    { intros Hn. apply Z.ltb_lt in Hn. rewrite Hn in Hroom.
      apply Z.leb_gt in Hroom. exact Hroom. }
    repeat split; auto. right. repeat split; try lia.
    intros Hn Hs. rewrite Hs. cbn [hd accepted]. specialize (Hr Hn). lia.
Qed.

Lemma chunk_size bs remaining :
  (if bs <? remaining then bs else remaining) = Z.min bs remaining.
Proof. destruct (bs <? remaining) eqn:E; [apply Z.ltb_lt in E | apply Z.ltb_ge in E]; lia. Qed.

End WorldFacts.

(** ** The handlers *)

(** Running the monadic code on a world. *)
Ltac run :=
  repeat first
    [ progress unfold bind, ret, eprint, perror, next_outcome, guestfs_is_config,
        sys_open, sys_lseek, sys_write, sys_close, sys_unlink, guestfs_add_drive,
        posix_fallocate
    | progress world_simpl
    | rewrite lookup_insert_eq
    | rewrite of_nat_not_m1
    | progress change (-1 =? -1) with true
    | progress change (0 =? -1) with false
    | progress change (-1 =? 1) with false
    | progress change (0 <? 1) with true
    | progress cbn [negb andb orb] ].

Ltac case_if :=
  match goal with
  | |- context [if ?b then _ else _] =>
      lazymatch b with
      | context [if _ then _ else _] => fail
      | context [match _ with Some _ => _ | None => _ end] => fail
      | _ => destruct b eqn:?
      end
  end.

(** ** The fallback loop

    The loop of [do_alloc] on a descriptor [fd] open on [file], with a
    buffer of [bs] bytes. *)

Section FallbackLoop.

Variables (bs : Z) (file : string) (fd : Z).
Hypothesis bs_pos : 0 < bs.

(** The fallback loop, started with [off] zero bytes in the file and the
    descriptor at its end. *)
Lemma write_loop_spec :
  forall fuel remaining off w fl w',
    0 <= remaining <= U64_MAX -> 0 <= off <= OFF_MAX ->
    fdtable w !! fd = Some (file, off) ->
    files w !! file = Some (zeros (Z.to_nat off)) ->
    write_loop bs file fd (zeros (Z.to_nat bs)) fuel remaining w = (fl, w') ->
    exists writes,
      chunked bs fd remaining writes
      /\ config w' = config w /\ drives w' = drives w
      /\ match fl with
         | Next =>
             trace w' = trace w ++ writes
             /\ written writes = remaining
             /\ off + remaining <= OFF_MAX
             /\ fdtable w' !! fd = Some (file, off + remaining)
             /\ files w' !! file = Some (zeros (Z.to_nat (off + remaining)))
             /\ stderr w' = stderr w
         | Return v =>
             v = -1
             /\ (exists r, trace w' = trace w ++ writes ++ [Close fd r; Unlink file])
             /\ files w' !! file = None
             /\ stderr w' = stderr w ++ [Perror "write"]
             /\ (exists pre n, writes = pre ++ [Write fd n (-1)])
         | OutOfFuel =>
             trace w' = trace w ++ writes
             /\ written writes < remaining
             /\ length writes = fuel
         end.
Proof.
  induction fuel as [|fuel IH];
    intros remaining off w fl w' Hrem Hoff Hfd Hfile; cbn [write_loop].
  - destruct (0 <? remaining) eqn:Hpos.
    + apply Z.ltb_lt in Hpos. intros [= <- <-]. exists [].
      rewrite app_nil_r. cbn. repeat split; auto.
    + apply Z.ltb_ge in Hpos. intros [= <- <-]. exists [].
      assert (remaining = 0) as -> by lia.
      rewrite app_nil_r, Z.add_0_r. cbn. repeat split; auto; lia.
  - destruct (0 <? remaining) eqn:Hpos.
    2:{ apply Z.ltb_ge in Hpos. intros [= <- <-]. exists [].
        assert (remaining = 0) as -> by lia.
        rewrite app_nil_r, Z.add_0_r. cbn. repeat split; auto; lia. }
    apply Z.ltb_lt in Hpos. rewrite chunk_size.
    set (n := Z.min bs remaining). assert (Hn : 0 < n <= remaining) by lia.
    unfold bind at 1.
    destruct (sys_write fd (zeros (Z.to_nat bs)) n w) as [r w1] eqn:Hw.
    destruct (sys_write_spec _ _ _ _ _ _ _ _ Hfd Hw)
      as (Htr & Hcfg & Hdr & Herr & _ & [(-> & Hf1 & Ht1) | (Hr0 & Hrn & Hroom & _ & Hf1 & Ht1)]).
    + (* the write failed *)
      cbn [Z.eqb Pos.eqb]. unfold bind, ret, perror, eprint, sys_close, sys_unlink, next_outcome.
      world_simpl. intros [= <- <-]. world_simpl.
      exists [Write fd n (-1)]. cbn [chunked].
      repeat split; auto.
      * eexists. rewrite Htr. trace_norm. reflexivity.
      * apply lookup_delete_eq.
      * now rewrite Herr.
      * exists [], n. reflexivity.
    + (* [r] bytes were written *)
      assert (Hne : (r =? -1) = false) by (apply Z.eqb_neq; lia).
      rewrite Hne. specialize (Hroom ltac:(lia)).
      assert (Hu : to_uint64 (remaining - r) = remaining - r)
        by (apply to_uint64_small; lia).
      rewrite Hu. intros Hloop.
      assert (Hfd1 : fdtable w1 !! fd = Some (file, off + r))
        by (rewrite Ht1; apply lookup_insert_eq).
      assert (Hfile1 : files w1 !! file = Some (zeros (Z.to_nat (off + r)))).
      { rewrite Hf1, lookup_alter_eq, Hfile. cbn [fmap option_fmap option_map].
        rewrite take_zeros by lia. rewrite write_at_end.
        rewrite Z2Nat.inj_add by lia. reflexivity. }
      destruct (IH (remaining - r) (off + r) w1 fl w' ltac:(lia) ltac:(lia) Hfd1 Hfile1 Hloop)
        as (writes & Hch & Hcfg' & Hdr' & Hfl).
      exists (Write fd n r :: writes). cbn [chunked written]. rewrite Hne.
      split; [repeat split; auto; lia|].
      split; [congruence|]. split; [congruence|].
      destruct fl as [|v|].
      * destruct Hfl as (Htr' & Hwr & Hmax & Hfd' & Hfile' & Herr').
        replace (off + r + (remaining - r)) with (off + remaining) in * by lia.
        repeat split; auto; try lia; try congruence.
        rewrite Htr', Htr. trace_norm. reflexivity.
      * destruct Hfl as (-> & (rc & Htr') & Hnone & Herr' & (pre & m & ->)).
        repeat split; auto.
        -- exists rc. rewrite Htr', Htr. trace_norm. reflexivity.
        -- congruence.
        -- exists (Write fd n r :: pre), m. reflexivity.
      * destruct Hfl as (Htr' & Hwr & Hlen).
        repeat split; try lia.
        -- rewrite Htr', Htr. trace_norm. reflexivity.
        -- cbn [length]. lia.
Qed.

(** Enough fuel: the loop does not run out when [fuel] covers the scripted
    outcomes and one iteration per byte. *)
Lemma write_loop_terminates :
  forall fuel remaining off w,
    0 <= remaining <= U64_MAX ->
    fdtable w !! fd = Some (file, off) ->
    (length (script w) + Z.to_nat remaining <= fuel)%nat ->
    fst (write_loop bs file fd (zeros (Z.to_nat bs)) fuel remaining w) <> OutOfFuel.
Proof.
  induction fuel as [|fuel IH]; intros remaining off w Hrem Hfd Hfuel;
    cbn [write_loop].
  - assert (remaining = 0) as -> by lia. cbn. discriminate.
  - destruct (0 <? remaining) eqn:Hpos; [|cbn; discriminate].
    apply Z.ltb_lt in Hpos. rewrite chunk_size.
    set (n := Z.min bs remaining). assert (Hn : 0 < n <= remaining) by lia.
    unfold bind at 1.
    destruct (sys_write fd (zeros (Z.to_nat bs)) n w) as [r w1] eqn:Hw.
    destruct (sys_write_spec _ _ _ _ _ _ _ _ Hfd Hw)
      as (_ & _ & _ & _ & Hs & [(-> & _ & _) | (Hr0 & Hrn & _ & Hprog & _ & Ht1)]).
    + cbn [Z.eqb Pos.eqb]. run. discriminate.
    + assert (Hne : (r =? -1) = false) by (apply Z.eqb_neq; lia).
      rewrite Hne, to_uint64_small by lia.
      apply (IH _ (off + r)); [lia | rewrite Ht1; apply lookup_insert_eq |].
      rewrite Hs. destruct (script w) as [|o sc]; cbn [tl length] in *.
      * specialize (Hprog ltac:(lia) eq_refl). lia.
      * lia.
Qed.

End FallbackLoop.

Section HandlerFacts.

Lemma parse_size_ok_silent str old :
  p_ret (parse_size str old) = 0 -> p_err (parse_size str old) = [].
Proof.
  rewrite parse_size_scan.
  destruct (scan_u64 str) as [| |v rest]; try discriminate.
  destruct (at_end rest); [reflexivity|].
  destruct rest as [|c rest]; try discriminate.
  destruct (switch_type c v); [reflexivity | discriminate].
Qed.

Lemma parse_ok_test str :
  p_ret (parse_size str indeterminate) = 0 ->
  (p_ret (parse_size str indeterminate) =? -1) = false.
Proof. intros ->. reflexivity. Qed.

End HandlerFacts.

(** ** Claims about the handlers *)

(** C5: when the size parses and the handle is no longer in the config
    state, [do_alloc] and [do_sparse] return -1 after printing the
    after-launch diagnostic, and nothing of the file system was touched: no
    call was made, files and descriptors are what they were. *)
Theorem config_closed_untouched b fuel file sz w :
  p_ret (parse_size sz indeterminate) = 0 -> config w = false ->
  (fst (do_alloc b fuel [file; sz] w) = Some (-1)
   /\ untouched w (snd (do_alloc b fuel [file; sz] w))
   /\ stderr (snd (do_alloc b fuel [file; sz] w)) = stderr w ++ [AfterLaunch])
  /\ (fst (do_sparse [file; sz] w) = -1
      /\ untouched w (snd (do_sparse [file; sz] w))
      /\ stderr (snd (do_sparse [file; sz] w)) = stderr w ++ [AfterLaunch]).
Proof.
  intros Hp Hc. unfold do_alloc, do_sparse, untouched.
  rewrite (parse_ok_test sz Hp), (parse_size_ok_silent sz _ Hp).
  run. rewrite Hc. run. rewrite !app_nil_r. repeat split; reflexivity.
Qed.

Lemma config_closed_untouched_witness :
  fst (do_alloc linux 0 ["disk.img"; "1M"]%string launched_world) = Some (-1)
  /\ trace (snd (do_sparse ["disk.img"; "1M"]%string launched_world)) = [].
Proof.
  destruct (config_closed_untouched linux 0 "disk.img" "1M" launched_world eq_refl eq_refl)
    as [(Ha & _) (_ & Hu & _)].
  split; [exact Ha | exact (proj1 (proj2 (proj2 (proj2 Hu))))].
Defined.

Lemma seek_offset size :
  - 2 ^ 63 <= size <= OFF_MAX -> 0 <= to_off_t (size - 1) -> to_off_t (size - 1) < OFF_MAX ->
  to_off_t (size - 1) = size - 1 /\ 1 <= size.
Proof.
  intros Hr H0 H1. destruct (Z.eq_dec size (- 2 ^ 63)) as [-> | Hne].
  - exfalso. revert H1. vm_compute. discriminate.
  - rewrite to_off_t_small in * by (unfold OFF_MAX in *; lia). lia.
Qed.

(** C8: [do_sparse] seeks to offset [size - 1] and writes one zero byte
    there.  After a successful open the next call is always the seek to
    [size - 1]; when the size is at least 1 and the seek is not failed, the
    call after it is the write of one byte; when the environment then fails
    no call and takes the byte, the run returns 0 having made exactly the
    calls open, lseek, write of one byte, close, and leaves a file of [size]
    zero bytes, registered as a drive; and every run that returns 0 is such a
    run.  When the parsed size is 0 the offset is -1, the seek is refused, and
    the run returns -1 after printing the [lseek] diagnostic, closing, and
    unlinking the file it had created. *)
Theorem do_sparse_seek_write file sz w :
  p_ret (parse_size sz indeterminate) = 0 -> config w = true ->
  failed (hd Done (script w)) = false ->
  let size := p_size (parse_size sz indeterminate) in
  let fd := Z.of_nat (next_fd w) in
  let seek := hd Done (tl (script w)) in
  let wr := hd Done (tl (tl (script w))) in
  let later := tl (tl (tl (script w))) in
  (0 <= size ->
   exists r evs,
     trace (snd (do_sparse [file; sz] w))
     = trace w ++ Open file fd :: Lseek fd (size - 1) r :: evs)
  /\ (1 <= size -> failed seek = false ->
      exists r evs,
        trace (snd (do_sparse [file; sz] w))
        = trace w ++ Open file fd :: Lseek fd (size - 1) (size - 1) :: Write fd 1 r :: evs)
  /\ (1 <= size -> failed seek = false -> failed wr = false -> accepted wr 1 = 1 ->
      Forall (fun o => failed o = false) later ->
      fst (do_sparse [file; sz] w) = 0
      /\ trace (snd (do_sparse [file; sz] w))
         = trace w ++ [Open file fd; Lseek fd (size - 1) (size - 1);
                       Write fd 1 1; Close fd 0]
      /\ files (snd (do_sparse [file; sz] w)) !! file = Some (zeros (Z.to_nat size))
      /\ Z.of_nat (length (zeros (Z.to_nat size))) = size
      /\ drives (snd (do_sparse [file; sz] w)) = drives w ++ [file])
  /\ (size = 0 ->
      fst (do_sparse [file; sz] w) = -1
      /\ (exists rc,
            trace (snd (do_sparse [file; sz] w))
            = trace w ++ [Open file fd; Lseek fd (-1) (-1); Close fd rc; Unlink file])
      /\ files (snd (do_sparse [file; sz] w)) !! file = None
      /\ stderr (snd (do_sparse [file; sz] w)) = stderr w ++ [Perror "lseek"]
      /\ drives (snd (do_sparse [file; sz] w)) = drives w)
  /\ (forall w', do_sparse [file; sz] w = (0, w') ->
      1 <= size
      /\ trace w' = trace w ++ [Open file fd; Lseek fd (size - 1) (size - 1);
                               Write fd 1 1; Close fd 0]
      /\ files w' !! file = Some (zeros (Z.to_nat size))
      /\ drives w' = drives w ++ [file]).
Proof.
  intros Hp Hc Hopen size fd seek wr later.
  pose proof (parse_size_off_t sz indeterminate Hp) as Hrange. fold size in Hrange.
  unfold do_sparse.
  rewrite (parse_ok_test sz Hp), (parse_size_ok_silent sz _ Hp). fold size.
  run. rewrite Hc. run. rewrite Hopen. run. fold fd. fold seek.
  repeat apply conj.
  - intros Hsize.
    rewrite to_off_t_small by (unfold OFF_MAX in *; lia).
    repeat (case_if; run); eexists _, _; trace_norm; reflexivity.
  - intros Hsize Hseek.
    rewrite to_off_t_small by (unfold OFF_MAX in *; lia).
    rewrite Hseek. assert (H1 : (size - 1 <? 0) = false) by (apply Z.ltb_ge; lia).
    assert (H2 : (size - 1 =? -1) = false) by (apply Z.eqb_neq; lia).
    rewrite H1. run. rewrite H2. run.
    repeat (case_if; run); eexists _, _; trace_norm; reflexivity.
  - intros Hsize Hseek Hwr Hacc Hlater.
    rewrite to_off_t_small by (unfold OFF_MAX in *; lia).
    rewrite Hseek. assert (H1 : (size - 1 <? 0) = false) by (apply Z.ltb_ge; lia).
    assert (H2 : (size - 1 =? -1) = false) by (apply Z.eqb_neq; lia).
    assert (H3 : (OFF_MAX - (size - 1) <=? 0) = false)
      by (apply Z.leb_gt; unfold OFF_MAX in *; lia).
    rewrite H1. run. rewrite H2. run. fold wr. rewrite Hwr, H3. run. rewrite Hacc.
    assert (Hr : Z.max 0 (Z.min 1 (OFF_MAX - (size - 1))) = 1) by (unfold OFF_MAX in *; lia).
    rewrite !Hr. change (1 =? 1) with true. run. fold later.
    assert (Hcl : failed (hd Done later) = false)
      by (destruct Hlater; [reflexivity | assumption]).
    assert (Had : failed (hd Done (tl later)) = false)
      by (destruct Hlater as [|? ? ? [|]]; [reflexivity | reflexivity | assumption]).
    rewrite Hcl. run. rewrite Had. run. rewrite Hc. run.
    split; [reflexivity|]. split; [trace_norm; reflexivity|].
    split; [|split; [rewrite length_zeros; lia | reflexivity]].
    rewrite lookup_alter_eq, lookup_insert_eq. cbn [fmap option_fmap option_map].
    change (take (Z.to_nat 1) [x00]) with (zeros 1).
    rewrite write_at_empty, <- zeros_add. do 2 f_equal. lia.
  - intros Hsize. rewrite Hsize. change (to_off_t (0 - 1)) with (-1).
    change (-1 <? 0) with true. rewrite orb_true_r. run. rewrite app_nil_r.
    split; [reflexivity|]. split; [eexists; trace_norm; reflexivity|].
    split; [apply lookup_delete_eq|]. split; reflexivity.
  - intros w'. repeat (case_if; run).
    all: intros [= <-]; world_simpl.
    apply orb_false_elim in Heqb as [_ Hoff]. apply Z.ltb_ge in Hoff.
    apply orb_false_elim in Heqb1 as [_ Hroom]. apply Z.leb_gt in Hroom.
    apply negb_false_iff, Z.eqb_eq in Heqb2. rewrite Heqb2.
    destruct (seek_offset size Hrange Hoff ltac:(lia)) as [Hs Hsize].
    rewrite Hs. split; [exact Hsize|].
    split; [trace_norm; reflexivity|].
    split; [|reflexivity].
    rewrite lookup_alter_eq, lookup_insert_eq. cbn [fmap option_fmap option_map].
    change (take (Z.to_nat 1) [x00]) with (zeros 1).
    rewrite write_at_empty, <- zeros_add. do 2 f_equal. lia.
Qed.

Lemma do_sparse_seek_write_witness :
  fst (do_sparse ["disk.img"; "4"]%string fresh_world) = 0
  /\ files (snd (do_sparse ["disk.img"; "4"]%string fresh_world)) !! "disk.img"%string
     = Some (zeros 4096)
  /\ fst (do_sparse ["disk.img"; "0"]%string fresh_world) = -1.
Proof.
  pose proof (do_sparse_seek_write "disk.img" "4" fresh_world eq_refl eq_refl eq_refl) as H4.
  pose proof (do_sparse_seek_write "disk.img" "0" fresh_world eq_refl eq_refl eq_refl) as H0.
  cbv zeta in H4, H0.
  destruct H4 as (_ & _ & Hok & _). destruct H0 as (_ & _ & _ & Hzero & _).
  assert (Hsize : 1 <= p_size (parse_size "4" indeterminate)) by (vm_compute; discriminate).
  assert (Hlater : Forall (fun o => failed o = false) (tl (tl (tl (script fresh_world)))))
    by (vm_compute; constructor).
  destruct (Hok Hsize eq_refl eq_refl eq_refl Hlater) as (Hr & _ & Hf & _).
  split; [exact Hr|]. split; [exact Hf | exact (proj1 (Hzero eq_refl))].
Defined.



Lemma uint64_of_off_t size :
  - 2 ^ 63 <= size <= OFF_MAX -> to_uint64 size <= OFF_MAX ->
  to_uint64 size = size /\ 0 <= size.
Proof.
  unfold to_uint64, OFF_MAX. intros Hr Hu.
  destruct (Z.lt_ge_cases size 0) as [Hneg | Hpos].
  - exfalso. replace size with (size + 2 ^ 64 + (-1) * 2 ^ 64) in Hu by lia.
    rewrite Z.mod_add in Hu by lia. rewrite Z.mod_small in Hu by lia. lia.
  - rewrite Z.mod_small by lia. lia.
Qed.

Lemma chunked_bound bs fd remaining writes :
  0 < bs -> chunked bs fd remaining writes ->
  Forall (fun e => exists n r, e = Write fd n r /\ 0 < n <= bs) writes.
Proof.
  intros Hbs. revert remaining. induction writes as [|e writes IH]; intros remaining Hch.
  - constructor.
  - destruct e; cbn [chunked] in Hch; try contradiction.
    destruct Hch as (-> & Hpos & -> & _ & Hch).
    constructor; [|eapply IH; eauto].
    eexists _, _. split; [reflexivity | lia].
Qed.

(** A [write] the environment does not fail, on a descriptor with room
    left, does not return -1. *)
Lemma sys_write_not_failed fd buf n w path off :
  fdtable w !! fd = Some (path, off) -> failed (hd Done (script w)) = false ->
  off < OFF_MAX -> fst (sys_write fd buf n w) <> -1.
Proof.
  intros Hfd Hok Hoff. unfold sys_write, bind, next_outcome. world_simpl.
  rewrite Hfd, Hok.
  assert (Hroom : (OFF_MAX - off <=? 0) = false) by (apply Z.leb_gt; lia).
  rewrite Hroom, andb_false_r. cbn [orb fst]. lia.
Qed.

Lemma not_failed_hd sc :
  Forall (fun o => failed o = false) sc -> failed (hd Done sc) = false.
Proof. intros [|o sc' Ho _]; [reflexivity | exact Ho]. Qed.

Lemma not_failed_tl sc :
  Forall (fun o => failed o = false) sc -> Forall (fun o => failed o = false) (tl sc).
Proof. intros [|o sc' _ Hsc]; [constructor | exact Hsc]. Qed.

(** When the environment fails no call, the loop does not leave by the
    error return, however short the writes are. *)
Lemma write_loop_no_error bs file fd :
  0 < bs ->
  forall fuel remaining off w,
    0 <= remaining <= U64_MAX -> 0 <= off -> off + remaining <= OFF_MAX ->
    fdtable w !! fd = Some (file, off) ->
    Forall (fun o => failed o = false) (script w) ->
    (forall v, fst (write_loop bs file fd (zeros (Z.to_nat bs)) fuel remaining w) <> Return v)
    /\ Forall (fun o => failed o = false)
         (script (snd (write_loop bs file fd (zeros (Z.to_nat bs)) fuel remaining w))).
Proof.
  intros Hbs. induction fuel as [|fuel IH]; intros remaining off w Hrem Hoff Hmax Hfd Hsc;
    cbn [write_loop].
  - destruct (0 <? remaining); cbn; (split; [discriminate | assumption]).
  - destruct (0 <? remaining) eqn:Hpos; [|cbn; split; [discriminate | assumption]].
    apply Z.ltb_lt in Hpos. rewrite chunk_size.
    set (n := Z.min bs remaining). assert (Hn : 0 < n <= remaining) by lia.
    match goal with
    | |- context [bind ?m ?k w] => change (bind m k w) with (let (a, w') := m w in k a w')
    end.
    pose proof (sys_write_not_failed fd (zeros (Z.to_nat bs)) n w file off Hfd
                  (not_failed_hd _ Hsc) ltac:(lia)) as Hnf.
    destruct (sys_write fd (zeros (Z.to_nat bs)) n w) as [r w1] eqn:Hw.
    cbn [fst] in Hnf.
    destruct (sys_write_spec _ _ _ _ _ _ _ _ Hfd Hw)
      as (_ & _ & _ & _ & Hs & [(Hr & _) | (Hr0 & Hrn & Hroom & _ & _ & Ht1)]);
      [contradiction|].
    assert (Hne : (r =? -1) = false) by (apply Z.eqb_neq; lia).
    rewrite Hne, to_uint64_small by lia.
    apply (IH _ (off + r)); try lia.
    + rewrite Ht1. apply lookup_insert_eq.
    + rewrite Hs. apply not_failed_tl, Hsc.
Qed.

(** C9: the fallback path of [do_alloc].  In every run of the loop the calls
    recorded are writes on the new descriptor, each asking for the smaller of
    [BUFSIZ] and what remains, what remains going down by exactly what the
    call returned; the loop leaves when nothing remains, or by the error
    return right after a write that returned -1 (then it closes and unlinks),
    and with enough fuel it does leave.  When the environment fails no call,
    however short the writes, the loop goes on until the writes add up to
    [size], the file holds exactly [size] zero bytes, and [do_alloc] returns
    0; every run of [do_alloc] that returns 0 is of this shape. *)
Theorem fallback_write_loop b :
  HAVE_POSIX_FALLOCATE b = false -> 0 < BUFSIZ b ->
  (forall file fd fuel size w fl w',
     - 2 ^ 63 <= size <= OFF_MAX ->
     fdtable w !! fd = Some (file, 0) -> files w !! file = Some [] ->
     write_loop (BUFSIZ b) file fd (zeros (Z.to_nat (BUFSIZ b))) fuel (to_uint64 size) w
     = (fl, w') ->
     exists writes,
       chunked (BUFSIZ b) fd (to_uint64 size) writes
       /\ Forall (fun e => exists n r, e = Write fd n r /\ 0 < n <= BUFSIZ b) writes
       /\ (fl = Next ->
           trace w' = trace w ++ writes
           /\ 0 <= size /\ written writes = size
           /\ files w' !! file = Some (zeros (Z.to_nat size)))
       /\ (forall v, fl = Return v ->
           v = -1 /\ (exists pre n, writes = pre ++ [Write fd n (-1)])
           /\ (exists rc, trace w' = trace w ++ writes ++ [Close fd rc; Unlink file])
           /\ files w' !! file = None
           /\ stderr w' = stderr w ++ [Perror "write"])
       /\ (fl = OutOfFuel ->
           trace w' = trace w ++ writes
           /\ length writes = fuel /\ written writes < to_uint64 size)
       /\ ((length (script w) + Z.to_nat (to_uint64 size) <= fuel)%nat ->
           fl <> OutOfFuel))
  /\ (forall file fd fuel size w,
        0 <= size <= OFF_MAX ->
        fdtable w !! fd = Some (file, 0) -> files w !! file = Some [] ->
        Forall (fun o => failed o = false) (script w) ->
        (length (script w) + Z.to_nat size <= fuel)%nat ->
        let run := write_loop (BUFSIZ b) file fd (zeros (Z.to_nat (BUFSIZ b))) fuel
                     (to_uint64 size) w in
        fst run = Next
        /\ files (snd run) !! file = Some (zeros (Z.to_nat size))
        /\ exists writes,
             trace (snd run) = trace w ++ writes
             /\ chunked (BUFSIZ b) fd size writes
             /\ written writes = size)
  /\ (forall fuel file sz w,
        let size := p_size (parse_size sz indeterminate) in
        p_ret (parse_size sz indeterminate) = 0 -> config w = true -> 0 <= size ->
        Forall (fun o => failed o = false) (script w) ->
        (length (script w) + Z.to_nat size <= fuel)%nat ->
        fst (do_alloc b fuel [file; sz] w) = Some 0
        /\ (exists writes,
              trace (snd (do_alloc b fuel [file; sz] w))
              = trace w ++ Open file (Z.of_nat (next_fd w)) :: writes
                        ++ [Close (Z.of_nat (next_fd w)) 0]
              /\ chunked (BUFSIZ b) (Z.of_nat (next_fd w)) size writes
              /\ written writes = size)
        /\ files (snd (do_alloc b fuel [file; sz] w)) !! file = Some (zeros (Z.to_nat size))
        /\ drives (snd (do_alloc b fuel [file; sz] w)) = drives w ++ [file])
  /\ (forall fuel file sz w w',
        do_alloc b fuel [file; sz] w = (Some 0, w') ->
        let size := p_size (parse_size sz indeterminate) in
        0 <= size
        /\ (exists fd writes,
              trace w' = trace w ++ Open file fd :: writes ++ [Close fd 0]
              /\ chunked (BUFSIZ b) fd size writes
              /\ written writes = size)
        /\ files w' !! file = Some (zeros (Z.to_nat size))
        /\ Z.of_nat (length (zeros (Z.to_nat size))) = size).
Proof.
  intros Hb Hbs. repeat apply conj.
  - intros file fd fuel size w fl w' Hsize Hfd Hfile Hloop.
    pose proof (to_uint64_range size) as Hu.
    destruct (write_loop_spec (BUFSIZ b) file fd Hbs fuel (to_uint64 size) 0 w fl w'
                Hu ltac:(unfold OFF_MAX; lia) Hfd Hfile Hloop)
      as (writes & Hch & _ & _ & Hfl).
    exists writes. split; [exact Hch|].
    split; [eapply chunked_bound; eauto|].
    repeat apply conj.
    + intros ->. destruct Hfl as (Htr & Hwr & Hmax & _ & Hfile' & _).
      rewrite Z.add_0_l in *.
      assert (Hnn : to_uint64 size = size /\ 0 <= size) by (apply uint64_of_off_t; lia).
      destruct Hnn as [Hs Hnn]. rewrite Hs in *. auto.
    + intros v ->. destruct Hfl as (-> & Htr & Hnone & Herr & Hlast). auto.
    + intros ->. destruct Hfl as (Htr & Hwr & Hlen). auto.
    + intros Hfuel ->.
      apply (write_loop_terminates (BUFSIZ b) file fd Hbs fuel (to_uint64 size) 0 w Hu Hfd Hfuel).
      rewrite Hloop. reflexivity.
  - intros file fd fuel size w Hsize Hfd Hfile Hsc Hfuel run. subst run.
    assert (Hu : to_uint64 size = size)
      by (apply to_uint64_small; unfold U64_MAX, OFF_MAX in *; lia).
    rewrite Hu.
    assert (Hrem : 0 <= size <= U64_MAX) by (unfold U64_MAX, OFF_MAX in *; lia).
    destruct (write_loop_no_error (BUFSIZ b) file fd Hbs fuel size 0 w Hrem
                ltac:(lia) ltac:(lia) Hfd Hsc) as [Hnoret _].
    pose proof (write_loop_terminates (BUFSIZ b) file fd Hbs fuel size 0 w Hrem Hfd Hfuel)
      as Hterm.
    destruct (write_loop (BUFSIZ b) file fd (zeros (Z.to_nat (BUFSIZ b))) fuel size w)
      as [fl w'] eqn:Hloop.
    cbn [fst snd] in *.
    destruct (write_loop_spec (BUFSIZ b) file fd Hbs fuel size 0 w fl w'
                Hrem ltac:(unfold OFF_MAX; lia) Hfd Hfile Hloop)
      as (writes & Hch & _ & _ & Hfl).
    destruct fl as [|v|]; [|exfalso; exact (Hnoret v eq_refl)|contradiction].
    destruct Hfl as (Htr & Hwr & _ & _ & Hfile' & _). rewrite Z.add_0_l in *.
    split; [reflexivity|]. split; [exact Hfile'|]. exists writes. auto.
  - intros fuel file sz w size Hp Hc Hsize Hsc Hfuel.
    pose proof (parse_size_off_t sz indeterminate Hp) as Hrange. fold size in Hrange.
    assert (Hu : to_uint64 size = size)
      by (apply to_uint64_small; unfold U64_MAX, OFF_MAX in *; lia).
    assert (Hrem : 0 <= size <= U64_MAX) by (unfold U64_MAX, OFF_MAX in *; lia).
    unfold do_alloc. rewrite Hb.
    rewrite (parse_ok_test sz Hp), (parse_size_ok_silent sz _ Hp). fold size.
    run. rewrite Hc. run. rewrite (not_failed_hd _ Hsc). run. rewrite Hu.
    match goal with
    | |- context [write_loop ?bs ?f ?fd ?buf ?fu ?rem ?W0] =>
        set (W := W0); destruct (write_loop bs f fd buf fu rem W) as [fl w2] eqn:Hloop
    end.
    assert (Hfd : fdtable W !! Z.of_nat (next_fd w) = Some (file, 0))
      by (subst W; world_simpl; apply lookup_insert_eq).
    assert (Hfile : files W !! file = Some (zeros (Z.to_nat 0)))
      by (subst W; world_simpl; apply lookup_insert_eq).
    assert (HsW : script W = tl (script w)) by reflexivity.
    assert (HscW : Forall (fun o => failed o = false) (script W))
      by (rewrite HsW; apply not_failed_tl, Hsc).
    assert (HfuelW : (length (script W) + Z.to_nat size <= fuel)%nat).
    { rewrite HsW. destruct (script w); cbn [tl length] in *; lia. }
    destruct (write_loop_no_error (BUFSIZ b) file _ Hbs fuel size 0 W Hrem
                ltac:(lia) ltac:(lia) Hfd HscW) as [Hnoret Hsc2].
    pose proof (write_loop_terminates (BUFSIZ b) file _ Hbs fuel size 0 W Hrem Hfd HfuelW)
      as Hterm.
    rewrite Hloop in Hnoret, Hsc2, Hterm. cbn [fst snd] in Hnoret, Hsc2, Hterm.
    destruct (write_loop_spec (BUFSIZ b) file _ Hbs fuel size 0 W fl w2
                Hrem ltac:(unfold OFF_MAX; lia) Hfd Hfile Hloop)
      as (writes & Hch & Hcfg & Hdr & Hfl).
    destruct fl as [|v|]; [|exfalso; exact (Hnoret v eq_refl)|contradiction].
    destruct Hfl as (Htr & Hwr & _ & Hfd2 & Hfile2 & _). rewrite Z.add_0_l in *.
    rewrite Hfd2. run. rewrite (not_failed_hd _ Hsc2). run.
    rewrite (not_failed_hd _ (not_failed_tl _ Hsc2)), Hcfg. subst W. run.
    rewrite Hc. run.
    split; [reflexivity|].
    split; [|split; [exact Hfile2 | rewrite Hdr; reflexivity]].
    exists writes. rewrite Htr. world_simpl.
    split; [trace_norm; reflexivity | auto].
  - intros fuel file sz w w'. unfold do_alloc. rewrite Hb.
    run. repeat (case_if; run); try (intros [= <-]; fail).
    set (size := p_size (parse_size sz indeterminate)).
    pose proof (to_uint64_range size) as Hu.
    match goal with
    | |- context [write_loop ?bs ?f ?fd ?buf ?fu ?rem ?W0] =>
        set (W := W0); destruct (write_loop bs f fd buf fu rem W) as [fl w2] eqn:Hloop
    end.
    assert (Hfd : fdtable W !! Z.of_nat (next_fd w) = Some (file, 0))
      by (subst W; world_simpl; apply lookup_insert_eq).
    assert (Hfile : files W !! file = Some (zeros (Z.to_nat 0)))
      by (subst W; world_simpl; apply lookup_insert_eq).
    destruct (write_loop_spec (BUFSIZ b) file _ Hbs fuel (to_uint64 size) 0 W fl w2
                Hu ltac:(unfold OFF_MAX; lia) Hfd Hfile Hloop)
      as (writes & Hch & Hcfg & _ & Hfl).
    destruct fl as [|v|]; [|destruct Hfl as [-> _]; intros [=]|intros [=]].
    destruct Hfl as (Htr & Hwr & Hmax & Hfd2 & Hfile2 & _).
    rewrite Z.add_0_l in *.
    pose proof (parse_size_off_t sz indeterminate) as Hoff.
    rewrite Z.eqb_neq in Heqb0.
    destruct (parse_size_status sz indeterminate) as [Hp | Hp]; [|contradiction].
    destruct (uint64_of_off_t size (Hoff Hp) Hmax) as [Hs Hnn].
    rewrite Hs in *. rewrite Hfd2. run. repeat (case_if; run); intros [= <-]; world_simpl.
    split; [exact Hnn|]. split; [|split; [exact Hfile2 | rewrite length_zeros; lia]].
    exists (Z.of_nat (next_fd w)), writes. rewrite Htr. subst W. world_simpl.
    split; [trace_norm; reflexivity | auto].
Qed.

Lemma fallback_write_loop_witness :
  fst (do_alloc portable 2048 ["disk.img"; "1"]%string short_write_world) = Some 0
  /\ files (snd (do_alloc portable 2048 ["disk.img"; "1"]%string short_write_world))
     !! "disk.img"%string
     = Some (zeros 1024).
Proof.
  destruct (fallback_write_loop portable eq_refl eq_refl) as (_ & _ & Hok & _).
  assert (Hsize : 0 <= p_size (parse_size "1" indeterminate)) by (vm_compute; discriminate).
  assert (Hsc : Forall (fun o => failed o = false) (script short_write_world))
    by (repeat constructor).
  assert (Hfuel : (length (script short_write_world)
                   + Z.to_nat (p_size (parse_size "1" indeterminate)) <= 2048)%nat)
    by (apply Nat.leb_le; vm_compute; reflexivity).
  destruct (Hok 2048%nat "disk.img"%string "1"%string short_write_world
              eq_refl eq_refl Hsize Hsc Hfuel) as (Hr & _ & Hf & _).
  split; [exact Hr | exact Hf].
Defined.


(** ** More on the handlers: statuses, argument count, cleanup *)

Section Cleanup.

(** [posix_fallocate] reports an error number, never -1. *)
Lemma posix_fallocate_not_m1 fd offset len w :
  0 <= fst (posix_fallocate fd offset len w).
Proof.
  unfold posix_fallocate. run.
  destruct (hd Done (script w)); cbn [fst];
    destruct (fdtable w !! fd) as [[path off]|]; cbn [fst];
    repeat case_if; cbn [fst]; unfold EBADF, EINVAL, EFBIG; lia.
Qed.

(** With any other number of arguments than two the handlers print their
    usage line and return -1 without any file-system interaction. *)
Lemma wrong_argument_count b fuel argv w :
  length argv <> 2%nat ->
  do_alloc b fuel argv w = (Some (-1), set_stderr (stderr w ++ [UsageAlloc]) w)
  /\ do_sparse argv w = (-1, set_stderr (stderr w ++ [UsageSparse]) w).
Proof.
  intros Hlen. destruct argv as [|a [|c [|d argv]]]; cbn [length] in Hlen;
    try lia; split; reflexivity.
Qed.

Lemma do_sparse_status argv w :
  fst (do_sparse argv w) = 0 \/ fst (do_sparse argv w) = -1.
Proof.
  destruct argv as [|file [|sz [|d argv]]]; try (right; reflexivity).
  unfold do_sparse. run. repeat (case_if; run); auto.
Qed.

(** Every run of [do_sparse] that returns -1 after a successful [open]
    ends by unlinking the file. *)
Lemma do_sparse_cleanup file sz w w' :
  do_sparse [file; sz] w = (-1, w') ->
  exists evs, trace w' = trace w ++ evs
    /\ (opened file evs -> files w' !! file = None /\ last evs = Some (Unlink file)).
Proof.
  unfold do_sparse. run. repeat (case_if; run).
  all: intros [= <-]; world_simpl.
  all: try (exists []; split; [symmetry; apply app_nil_r|];
            intros (fd & _ & []); fail).
  all: eexists; (split; [trace_norm; reflexivity|]).
  all: try (intros (fd & Hfd & [[= <-] | []]); exfalso; lia).
  all: intros _; split; [apply lookup_delete_eq | reflexivity].
Qed.

Ltac case_outcome :=
  match goal with
  | |- context [match ?o with Done => _ | Short _ => _ | Error _ => _ end] =>
      destruct o eqn:?
  end.

Ltac leaf file :=
  world_simpl;
  first
    [ exists []; split; [symmetry; apply app_nil_r|]; intros (? & _ & []); fail
    | eexists; (split; [trace_norm; reflexivity|]);
      first
        [ intros (? & ? & [[= <-] | []]); exfalso; lia
        | intros _; split; [apply lookup_delete_eq | reflexivity] ] ].

Lemma last_after {A} (x : A) l a c : last (x :: l ++ [a; c]) = Some c.
Proof.
  change (x :: l ++ [a; c]) with ((x :: l) ++ [a] ++ [c]).
  rewrite !app_assoc. apply last_snoc.
Qed.

Lemma do_alloc_cleanup b fuel file sz w w' :
  0 < BUFSIZ b ->
  do_alloc b fuel [file; sz] w = (Some (-1), w') ->
  exists evs, trace w' = trace w ++ evs
    /\ (opened file evs -> files w' !! file = None /\ last evs = Some (Unlink file)).
Proof.
  intros Hbs. unfold do_alloc. destruct (HAVE_POSIX_FALLOCATE b) eqn:Hb.
  - run. repeat (case_if; run).
    all: try (case_outcome; run; unfold EBADF, EINVAL, EFBIG; cbn [Z.eqb];
              repeat (case_if; run)).
    all: intros [= <-]; leaf file.
  - run. repeat (case_if; run).
    all: try (intros [= <-]; leaf file; fail).
    pose proof (to_uint64_range (p_size (parse_size sz indeterminate))) as Hu.
    match goal with
    | |- context [write_loop ?bs ?f ?fd ?buf ?fu ?rem ?W0] =>
        set (W := W0); destruct (write_loop bs f fd buf fu rem W) as [fl w2] eqn:Hloop
    end.
    assert (Hfd : fdtable W !! Z.of_nat (next_fd w) = Some (file, 0))
      by (subst W; world_simpl; apply lookup_insert_eq).
    assert (Hfile : files W !! file = Some (zeros (Z.to_nat 0)))
      by (subst W; world_simpl; apply lookup_insert_eq).
    destruct (write_loop_spec (BUFSIZ b) file _ Hbs fuel _ 0 W fl w2
                Hu ltac:(unfold OFF_MAX; lia) Hfd Hfile Hloop)
      as (writes & _ & _ & _ & Hfl).
    destruct fl as [|v|]; [| |intros [=]].
    + destruct Hfl as (Htr & _ & _ & Hfd2 & _ & _).
      rewrite Hfd2. run. repeat (case_if; run); intros [= <-]; world_simpl.
      all: rewrite Htr; subst W; world_simpl.
      all: eexists; (split; [trace_norm; reflexivity|]).
      all: intros _; split; [apply lookup_delete_eq | apply last_after].
    + destruct Hfl as (-> & (rc & Htr) & Hnone & _ & _). intros [= <-].
      rewrite Htr. subst W. world_simpl.
      eexists. split; [trace_norm; reflexivity|].
      intros _. split; [exact Hnone | apply last_after].
Qed.

Lemma do_alloc_status b fuel argv w :
  0 < BUFSIZ b ->
  fst (do_alloc b fuel argv w) = None
  \/ fst (do_alloc b fuel argv w) = Some 0
  \/ fst (do_alloc b fuel argv w) = Some (-1).
Proof.
  intros Hbs.
  destruct argv as [|file [|sz [|d argv]]]; try (right; right; reflexivity).
  unfold do_alloc. destruct (HAVE_POSIX_FALLOCATE b) eqn:Hb.
  - run. repeat (case_if; run); auto.
    all: case_outcome; run; unfold EBADF, EINVAL, EFBIG; cbn [Z.eqb];
      repeat (case_if; run); auto.
  - run. repeat (case_if; run); auto.
    pose proof (to_uint64_range (p_size (parse_size sz indeterminate))) as Hu.
    match goal with
    | |- context [write_loop ?bs ?f ?fd ?buf ?fu ?rem ?W0] =>
        set (W := W0); destruct (write_loop bs f fd buf fu rem W) as [fl w2] eqn:Hloop
    end.
    assert (Hfd : fdtable W !! Z.of_nat (next_fd w) = Some (file, 0))
      by (subst W; world_simpl; apply lookup_insert_eq).
    assert (Hfile : files W !! file = Some (zeros (Z.to_nat 0)))
      by (subst W; world_simpl; apply lookup_insert_eq).
    destruct (write_loop_spec (BUFSIZ b) file _ Hbs fuel _ 0 W fl w2
                Hu ltac:(unfold OFF_MAX; lia) Hfd Hfile Hloop)
      as (writes & _ & _ & _ & Hfl).
    destruct fl as [|v|]; [| |auto].
    + destruct Hfl as (_ & _ & _ & Hfd2 & _ & _).
      rewrite Hfd2. run. repeat (case_if; run); auto.
    + destruct Hfl as (-> & _). auto.
Qed.

End Cleanup.

Section FallocateResult.

(** In a build with [HAVE_POSIX_FALLOCATE], whatever [posix_fallocate]
    answers, [do_alloc] goes on to close the file and add the drive: the
    test against -1 never holds.  When the call failed, the file is left
    empty. *)
Ltac fallocate_go :=
  repeat first
    [ progress run
    | progress cbn [hd tl failed]
    | progress unfold EBADF, EINVAL, EFBIG
    | progress cbn [Z.eqb] ].

Lemma fallocate_result_ignored bufsiz fuel file sz w o :
  p_ret (parse_size sz indeterminate) = 0 -> config w = true ->
  script w = [Done; o] ->
  let run := do_alloc (Build true bufsiz) fuel [file; sz] w in
  let fd := Z.of_nat (next_fd w) in
  fst run = Some 0
  /\ drives (snd run) = drives w ++ [file]
  /\ (exists r, trace (snd run)
                = trace w ++ [Open file fd;
                              PosixFallocate fd 0 (p_size (parse_size sz indeterminate)) r;
                              Close fd 0])
  /\ (failed o = true -> files (snd run) !! file = Some []).
Proof.
  intros Hp Hc Hs. destruct w as [f t n c d e tr sc].
  cbn [config script] in Hc, Hs. subst c sc.
  unfold do_alloc. cbn [HAVE_POSIX_FALLOCATE].
  rewrite (parse_ok_test sz Hp), (parse_size_ok_silent sz _ Hp).
  fallocate_go. destruct o; fallocate_go; repeat (case_if; fallocate_go).
  all: split; [reflexivity|]; split; [reflexivity|].
  all: split; [eexists; trace_norm; reflexivity|].
  all: intros Hf; try discriminate Hf.
  all: first [reflexivity | apply lookup_insert_eq].
Qed.

End FallocateResult.

(** C7 fails on the code: with [HAVE_POSIX_FALLOCATE], on a disk that is
    full ([posix_fallocate] answers [ENOSPC], 28), [do_alloc] returns 0 and
    adds the drive, although nothing was allocated: the file is empty, not
    1048576 bytes long. *)
Theorem do_alloc_returns_0_on_fallocate_failure :
  fst (do_alloc linux 0 ["disk.img"; "1M"]%string full_disk_world) = Some 0
  /\ trace (snd (do_alloc linux 0 ["disk.img"; "1M"]%string full_disk_world))
     = [Open "disk.img" 3; PosixFallocate 3 0 1048576 28; Close 3 0]
  /\ files (snd (do_alloc linux 0 ["disk.img"; "1M"]%string full_disk_world))
     !! "disk.img"%string = Some []
  /\ drives (snd (do_alloc linux 0 ["disk.img"; "1M"]%string full_disk_world))
     = ["disk.img"%string]
  /\ stderr (snd (do_alloc linux 0 ["disk.img"; "1M"]%string full_disk_world)) = [].
Proof. vm_compute. repeat split. Qed.

(** C6 fails on the code: with [HAVE_POSIX_FALLOCATE], when the allocation
    fails after the file was opened ([posix_fallocate] answers [ENOSPC], 28),
    [do_alloc] neither unlinks the file nor returns -1: the path is still on
    disk, empty, no [unlink] was called, and the run ends with status 0. *)
Theorem do_alloc_keeps_file_on_fallocate_failure :
  fst (do_alloc linux 0 ["disk.img"; "4096"]%string full_disk_world) = Some 0
  /\ In (PosixFallocate 3 0 4194304 28)
        (trace (snd (do_alloc linux 0 ["disk.img"; "4096"]%string full_disk_world)))
  /\ ~ In (Unlink "disk.img")
        (trace (snd (do_alloc linux 0 ["disk.img"; "4096"]%string full_disk_world)))
  /\ files (snd (do_alloc linux 0 ["disk.img"; "4096"]%string full_disk_world))
     !! "disk.img"%string = Some [].
Proof.
  vm_compute. repeat split; [auto|].
  intros [H | [H | [H | []]]]; discriminate H.
Qed.

(** What does hold of the error paths: a run of [do_alloc] or [do_sparse]
    that returns -1 after it opened the file has unlinked the file as its
    last file-system call, whichever step failed (a write, the seek, the
    close, adding the drive), and the file is not on disk afterwards. *)
Lemma failure_after_open_unlinks b fuel file sz w :
  0 < BUFSIZ b ->
  (forall w', do_alloc b fuel [file; sz] w = (Some (-1), w') ->
     exists evs, trace w' = trace w ++ evs
       /\ (opened file evs -> files w' !! file = None /\ last evs = Some (Unlink file)))
  /\ (forall w', do_sparse [file; sz] w = (-1, w') ->
        exists evs, trace w' = trace w ++ evs
          /\ (opened file evs -> files w' !! file = None /\ last evs = Some (Unlink file))).
Proof.
  intros Hbs. split; intros w'.
  - now apply do_alloc_cleanup.
  - apply do_sparse_cleanup.
Qed.

(** Adding the drive fails after the file was written and closed: the file
    is unlinked. *)
Example drive_refused_unlinks :
  fst (do_alloc portable 10 ["disk.img"; "1"]%string drive_refused_world) = Some (-1)
  /\ trace (snd (do_alloc portable 10 ["disk.img"; "1"]%string drive_refused_world))
     = [Open "disk.img" 3; Write 3 1024 1024; Close 3 0; Unlink "disk.img"]
  /\ files (snd (do_alloc portable 10 ["disk.img"; "1"]%string drive_refused_world))
     !! "disk.img"%string = None.
Proof. vm_compute. repeat split. Qed.

(** * Further properties of [parse_size] *)

Section ParseSizeMore.

Lemma has_digit_app a b : has_digit (a +:+ b) = has_digit a || has_digit b.
Proof.
  induction a as [|c a IH]; [reflexivity|].
  rewrite app_cons_s. cbn [has_digit]. rewrite IH. apply orb_assoc.
Qed.

Lemma digits_has_digit ds : digits ds = true -> has_digit ds = true.
Proof.
  destruct ds as [|c ds]; [discriminate|]. cbn [digits all_digits has_digit].
  intros H. apply andb_prop in H as [-> _]. reflexivity.
Qed.

Lemma loose_has_digit str : loose str -> has_digit str = true.
Proof.
  intros (ws & sign & ds & rest & -> & _ & _ & Hds & _).
  rewrite !has_digit_app, (digits_has_digit ds Hds).
  rewrite !orb_true_r. reflexivity.
Qed.

Lemma scan_u64_skip ws s : all_space ws = true -> scan_u64 (ws +:+ s) = scan_u64 s.
Proof.
  intros Hws. unfold scan_u64.
  assert (H : skip_space (ws +:+ s) = skip_space s).
  { induction ws as [|c ws IH]; [reflexivity|].
    cbn [all_space] in Hws. apply andb_prop in Hws as [Hc Hws].
    rewrite app_cons_s. cbn [skip_space]. rewrite Hc. auto. }
  rewrite H. reflexivity.
Qed.

(** What [parse_size] does with digits followed by a character that is not
    a digit: the switch on that character decides. *)
Lemma parse_size_digits_then ds c rest old :
  digits ds = true -> isdigit c = false -> c <> NUL ->
  parse_size (ds +:+ String c rest) old =
  match switch_type c (strtoull_value false (decimal_value ds)) with
  | Some size' => Parsed 0 (to_off_t size') []
  | None => Parsed (-1) old [BadSize (ds +:+ String c rest)]
  end.
Proof.
  intros Hds Hnd Hc. rewrite parse_size_scan.
  pose proof (scan_u64_loose EmptyString EmptyString ds (String c rest)
                eq_refl (or_introl eq_refl) Hds Hnd) as H.
  rewrite !app_nil_s in H. rewrite H. cbn [at_end negative String.eqb].
  apply Ascii.eqb_neq in Hc. rewrite Hc. reflexivity.
Qed.

Lemma parse_size_digits_only ds old :
  digits ds = true ->
  parse_size ds old
  = Parsed 0 (to_off_t (to_uint64 (strtoull_value false (decimal_value ds) * 1024))) [].
Proof.
  intros Hds. rewrite parse_size_scan.
  pose proof (scan_u64_loose EmptyString EmptyString ds EmptyString
                eq_refl (or_introl eq_refl) Hds I) as H.
  rewrite !app_nil_s, app_empty_r in H. rewrite H. reflexivity.
Qed.

Lemma to_off_t_mod z : to_off_t (to_uint64 z) = to_off_t z.
Proof.
  unfold to_off_t, to_uint64. now rewrite Zplus_mod_idemp_l.
Qed.

Lemma negated_product v m :
  0 <= v <= U64_MAX -> 0 <= v * m <= 2 ^ 63 ->
  to_off_t (to_uint64 (to_uint64 (- v) * m)) = - (v * m).
Proof.
  intros Hv Hp. unfold to_uint64 at 2.
  rewrite to_off_t_mod. unfold to_off_t.
  rewrite <- Zplus_mod_idemp_l, Zmult_mod_idemp_l, Zplus_mod_idemp_l.
  replace (- v * m + 2 ^ 63) with (2 ^ 63 - v * m) by ring.
  rewrite Z.mod_small by lia. ring.
Qed.

End ParseSizeMore.

(** X1: a string without any decimal digit (the empty string, white space
    only, a lone sign, letters) makes [parse_size] fail, with the diagnostic
    and the caller's location as it was. *)
Theorem parse_size_needs_digit str old :
  has_digit str = false -> parse_size str old = Parsed (-1) old [BadSize str].
Proof.
  intros Hnd. apply parse_size_failure.
  destruct (parse_size_status str old) as [H0 | H1]; [|exact H1].
  apply parse_size_accepts, loose_has_digit in H0. congruence.
Qed.

Lemma parse_size_needs_digit_witness :
  parse_size EmptyString 7 = Parsed (-1) 7 [BadSize EmptyString]
  /\ parse_size " -k" 7 = Parsed (-1) 7 [BadSize " -k"].
Proof.
  split; [exact (parse_size_needs_digit EmptyString 7 eq_refl)
         | exact (parse_size_needs_digit " -k" 7 eq_refl)].
Defined.

(** X2: white space before the number is skipped, the status and the stored
    size are those of the string without it; a white-space character right
    after the digits is not skipped, it is taken as a suffix and refused. *)
Theorem parse_size_leading_space ws s ds c rest old :
  all_space ws = true ->
  same_result (parse_size (ws +:+ s) old) (parse_size s old)
  /\ (digits ds = true -> isspace c = true ->
      p_ret (parse_size (ds +:+ String c rest) old) = -1).
Proof.
  intros Hws. split.
  - unfold same_result. rewrite !parse_size_scan, (scan_u64_skip ws s Hws).
    destruct (scan_u64 s) as [| |v r]; [auto | auto |].
    destruct (at_end r); [auto|].
    destruct r as [|x r]; [auto|]. destruct (switch_type x v); auto.
  - intros Hds Hc.
    assert (Hsp : isdigit c = false /\ c <> NUL /\ multiplier c = None).
    { revert Hc. destruct c as [[] [] [] [] [] [] [] []]; vm_compute;
        intros H; try discriminate H; repeat split; discriminate. }
    destruct Hsp as (Hnd & Hn & Hm).
    rewrite (parse_size_bad_suffix ds c rest old Hds Hm Hnd Hn). reflexivity.
Qed.

Lemma parse_size_leading_space_witness :
  p_size (parse_size "  12m" 7) = p_size (parse_size "12m" 7)
  /\ p_ret (parse_size "12 m" 7) = -1.
Proof.
  destruct (parse_size_leading_space "  " "12m" "12" " " "m" 7 eq_refl) as [[_ Hs] Hbad].
  split; [exact Hs | exact (Hbad eq_refl eq_refl)].
Defined.

(** X3: whatever follows a suffix character of the table is ignored:
    digits, the suffix and any text give what digits and the suffix give. *)
Theorem parse_size_ignores_tail ds c rest old :
  digits ds = true -> is_Some (multiplier c) ->
  parse_size (ds +:+ String c rest) old = parse_size (ds +:+ String c EmptyString) old.
Proof.
  intros Hds Hc. destruct (suffix_char c Hc) as [Hnd Hn].
  apply Ascii.eqb_neq in Hn.
  rewrite !parse_size_digits_then by assumption.
  rewrite switch_type_multiplier. destruct Hc as [m ->]. reflexivity.
Qed.

Lemma parse_size_ignores_tail_witness :
  parse_size "10kB" 7 = parse_size "10k" 7.
Proof.
  exact (parse_size_ignores_tail "10" "k" "B" 7 eq_refl (ex_intro _ _ eq_refl)).
Defined.

(** X4: the result depends on the suffix character only through its
    multiplier: two suffix characters with the same multiplier, such as a
    letter and its upper-case form, give the same result. *)
Theorem parse_size_same_multiplier ds c c' m old :
  digits ds = true -> multiplier c = Some m -> multiplier c' = Some m ->
  parse_size (ds +:+ String c EmptyString) old
  = parse_size (ds +:+ String c' EmptyString) old.
Proof.
  intros Hds Hc Hc'.
  destruct (suffix_char c (ex_intro _ m Hc)) as [Hnd Hn].
  destruct (suffix_char c' (ex_intro _ m Hc')) as [Hnd' Hn'].
  apply Ascii.eqb_neq in Hn, Hn'.
  rewrite !parse_size_digits_then by assumption.
  rewrite !switch_type_multiplier, Hc, Hc'. reflexivity.
Qed.

Lemma parse_size_same_multiplier_witness :
  parse_size "3g" 7 = parse_size "3G" 7.
Proof.
  exact (parse_size_same_multiplier "3" "g" "G" (1024 ^ 3) 7 eq_refl eq_refl eq_refl).
Defined.

(** X5: the default unit is the one of the suffix k: digits alone give what
    the same digits followed by k (and anything) give. *)
Theorem parse_size_default_unit ds rest old :
  digits ds = true ->
  parse_size ds old = parse_size (ds +:+ String "k" rest) old.
Proof.
  intros Hds.
  rewrite parse_size_digits_only by assumption.
  rewrite parse_size_digits_then by (assumption || reflexivity || discriminate).
  reflexivity.
Qed.

Lemma parse_size_default_unit_witness :
  parse_size "42" 7 = parse_size "42k" 7.
Proof. exact (parse_size_default_unit "42" EmptyString 7 eq_refl). Defined.

(** X6: a minus sign before the digits is taken: the stored size is the
    negated product when the product is at most 2^63, both with a suffix
    of the table and with digits alone. *)
Theorem parse_size_minus ds old :
  digits ds = true ->
  (forall c m rest, multiplier c = Some m -> decimal_value ds * m <= 2 ^ 63 ->
     parse_size ("-" +:+ ds +:+ String c rest) old
     = Parsed 0 (- (decimal_value ds * m)) [])
  /\ (decimal_value ds * 1024 <= 2 ^ 63 ->
      parse_size ("-" +:+ ds) old = Parsed 0 (- (decimal_value ds * 1024)) []).
Proof.
  intros Hds. pose proof (digits_nonneg ds Hds) as Hnn. split.
  - intros c m rest Hm Hp. pose proof (multiplier_bounds c m Hm) as Hb.
    destruct (suffix_char c (ex_intro _ m Hm)) as [Hnd Hn].
    rewrite parse_size_scan.
    pose proof (scan_u64_loose EmptyString "-" ds (String c rest)
                  eq_refl (or_intror (or_intror eq_refl)) Hds Hnd) as H.
    rewrite app_nil_s in H. rewrite H. cbn [at_end]. rewrite Hn.
    rewrite switch_type_multiplier, Hm. cbn [fmap option_fmap option_map].
    unfold strtoull_value, negative. cbn [String.eqb Ascii.eqb Bool.eqb].
    assert (Hv : decimal_value ds <= U64_MAX) by (unfold U64_MAX; nia).
    destruct (U64_MAX <? decimal_value ds) eqn:E; [apply Z.ltb_lt in E; lia|].
    rewrite negated_product by nia. reflexivity.
  - intros Hp.
    rewrite parse_size_scan.
    pose proof (scan_u64_loose EmptyString "-" ds EmptyString
                  eq_refl (or_intror (or_intror eq_refl)) Hds I) as H.
    rewrite app_nil_s, app_empty_r in H. rewrite H. cbn [at_end].
    unfold strtoull_value, negative. cbn [String.eqb Ascii.eqb Bool.eqb].
    assert (Hv : decimal_value ds <= U64_MAX) by (unfold U64_MAX; lia).
    destruct (U64_MAX <? decimal_value ds) eqn:E; [apply Z.ltb_lt in E; lia|].
    rewrite negated_product by lia. reflexivity.
Qed.

Lemma parse_size_minus_witness :
  parse_size "-2m" 7 = Parsed 0 (- (2 * 1024 ^ 2)) []
  /\ parse_size "-1" 7 = Parsed 0 (-1024) [].
Proof.
  destruct (parse_size_minus "2" 7 eq_refl) as [Hs _].
  destruct (parse_size_minus "1" 7 eq_refl) as [_ Hb].
  split.
  - apply (Hs "m"%char (1024 ^ 2) EmptyString eq_refl). vm_compute. discriminate.
  - apply Hb. vm_compute. discriminate.
Defined.

(** * Further properties of the handlers *)

Section HandlersMore.

Lemma sys_write_fdtable fd buf n w k :
  k <> fd -> fdtable (snd (sys_write fd buf n w)) !! k = fdtable w !! k.
Proof.
  intros Hk. unfold sys_write. run.
  destruct (fdtable w !! fd) as [[path off]|]; run; [|reflexivity].
  case_if; run; [reflexivity|]. now apply lookup_insert_ne.
Qed.

(** The loop leaves the other descriptors alone, and a return from inside
    the loop has closed its own. *)
Lemma write_loop_fdtable bs file fd buffer fuel remaining w fl w' :
  write_loop bs file fd buffer fuel remaining w = (fl, w') ->
  (forall k, k <> fd -> fdtable w' !! k = fdtable w !! k)
  /\ (forall v, fl = Return v -> fdtable w' !! fd = None).
Proof.
  revert remaining w. induction fuel as [|fuel IH]; intros remaining w; cbn [write_loop].
  - destruct (0 <? remaining); intros [= <- <-]; split; auto; discriminate.
  - destruct (0 <? remaining); [|intros [= <- <-]; split; auto; discriminate].
    unfold bind at 1.
    pose proof (sys_write_fdtable fd buffer
                  (if bs <? remaining then bs else remaining) w) as Hw.
    destruct (sys_write fd buffer (if bs <? remaining then bs else remaining) w)
      as [r w1] eqn:E. cbn [snd] in Hw.
    destruct (r =? -1).
    + run. intros [= <- <-]. world_simpl. split.
      * intros k Hk. rewrite lookup_delete_ne by congruence. now apply Hw.
      * intros _ _. apply lookup_delete_eq.
    + intros Hloop. destruct (IH _ _ Hloop) as [IH1 IH2]. split.
      * intros k Hk. rewrite IH1 by assumption. now apply Hw.
      * exact IH2.
Qed.

End HandlersMore.

(** X7: with any number of arguments other than two, [do_alloc] and
    [do_sparse] print their usage line and return -1; nothing else of the
    world changes, the size is not even parsed. *)
Theorem usage_on_wrong_argc b fuel argv w :
  length argv <> 2%nat ->
  do_alloc b fuel argv w = (Some (-1), set_stderr (stderr w ++ [UsageAlloc]) w)
  /\ do_sparse argv w = (-1, set_stderr (stderr w ++ [UsageSparse]) w).
Proof.
  intros Hlen. destruct argv as [|a [|c [|d argv]]]; cbn [length] in Hlen;
    try lia; split; reflexivity.
Qed.

Lemma usage_on_wrong_argc_witness :
  fst (do_alloc linux 0 ["disk.img"]%string fresh_world) = Some (-1)
  /\ stderr (snd (do_sparse ["disk.img"; "1M"; "x"]%string fresh_world)) = [UsageSparse].
Proof.
  assert (H1 : length ["disk.img"%string] <> 2%nat) by (cbn; lia).
  assert (H3 : length ["disk.img"; "1M"; "x"]%string <> 2%nat) by (cbn; lia).
  destruct (usage_on_wrong_argc linux 0 ["disk.img"%string] fresh_world H1) as [Ha _].
  destruct (usage_on_wrong_argc linux 0 ["disk.img"; "1M"; "x"]%string fresh_world H3)
    as [_ Hs].
  split; [now rewrite Ha | now rewrite Hs].
Defined.

(** X8: when the size does not parse, both handlers return -1 having
    printed the size-specification diagnostic and nothing else: no call is
    made, and the state of the handle is not consulted. *)
Theorem bad_size_untouched b fuel file sz w :
  p_ret (parse_size sz indeterminate) = -1 ->
  do_alloc b fuel [file; sz] w = (Some (-1), set_stderr (stderr w ++ [BadSize sz]) w)
  /\ do_sparse [file; sz] w = (-1, set_stderr (stderr w ++ [BadSize sz]) w).
Proof.
  intros Hp. unfold do_alloc, do_sparse.
  rewrite (parse_size_failure sz indeterminate Hp). cbn [p_ret p_err].
  run. split; reflexivity.
Qed.

Lemma bad_size_untouched_witness :
  do_sparse ["disk.img"; "1S"]%string launched_world
  = (-1, set_stderr [BadSize "1S"] launched_world).
Proof.
  exact (proj2 (bad_size_untouched linux 0 "disk.img" "1S" launched_world eq_refl)).
Defined.

(** X9: when [open] fails, both handlers print the system error for the
    path and return -1; the files are what they were (a file already at the
    path is not removed), no descriptor was opened, no drive added, and the
    only call made is the failed [open]. *)
Theorem open_failure_keeps_files b fuel file sz w :
  p_ret (parse_size sz indeterminate) = 0 -> config w = true ->
  failed (hd Done (script w)) = true ->
  (fst (do_alloc b fuel [file; sz] w) = Some (-1)
   /\ files (snd (do_alloc b fuel [file; sz] w)) = files w
   /\ fdtable (snd (do_alloc b fuel [file; sz] w)) = fdtable w
   /\ drives (snd (do_alloc b fuel [file; sz] w)) = drives w
   /\ trace (snd (do_alloc b fuel [file; sz] w)) = trace w ++ [Open file (-1)]
   /\ stderr (snd (do_alloc b fuel [file; sz] w)) = stderr w ++ [Perror file])
  /\ (fst (do_sparse [file; sz] w) = -1
      /\ files (snd (do_sparse [file; sz] w)) = files w
      /\ fdtable (snd (do_sparse [file; sz] w)) = fdtable w
      /\ drives (snd (do_sparse [file; sz] w)) = drives w
      /\ trace (snd (do_sparse [file; sz] w)) = trace w ++ [Open file (-1)]
      /\ stderr (snd (do_sparse [file; sz] w)) = stderr w ++ [Perror file]).
Proof.
  intros Hp Hc Hf. unfold do_alloc, do_sparse.
  rewrite (parse_ok_test sz Hp), (parse_size_ok_silent sz _ Hp).
  run. rewrite Hc. run. rewrite Hf. run. rewrite !app_nil_r.
  repeat split; reflexivity.
Qed.

Lemma open_failure_keeps_files_witness :
  files (snd (do_alloc portable 5 ["disk.img"; "1"]%string
                (set_files {["disk.img"%string := [x01]]}
                   (set_script [Error 13] fresh_world))))
  !! "disk.img"%string = Some [x01].
Proof.
  destruct (open_failure_keeps_files portable 5 "disk.img" "1"
              (set_files {["disk.img"%string := [x01]]} (set_script [Error 13] fresh_world))
              eq_refl eq_refl eq_refl) as [(_ & Hfiles & _) _].
  rewrite Hfiles. reflexivity.
Defined.

(** Case analysis on the outcome [posix_fallocate] looks at. *)
Ltac outcome_cases :=
  match goal with
  | |- context [match ?o with Done => _ | Short _ => _ | Error _ => _ end] =>
      destruct o eqn:?
  end.

Ltac fallocate_cases :=
  try (outcome_cases; run; unfold EBADF, EINVAL, EFBIG; cbn [Z.eqb];
       repeat (case_if; run)).

(** Running [do_alloc] up to the loop and naming the loop's result. *)
Ltac enter_loop W fl w2 Hloop :=
  match goal with
  | |- context [write_loop ?bs ?f ?fd ?buf ?fu ?rem ?W0] =>
      set (W := W0); destruct (write_loop bs f fd buf fu rem W) as [fl w2] eqn:Hloop
  end.

(** X10: a run of [do_alloc] or [do_sparse] that returns -1 after it opened
    the file has unlinked the file as its last file-system call, whichever
    step failed, and the path is not on disk afterwards. *)
Theorem error_after_open_unlinks b fuel file sz w :
  0 < BUFSIZ b ->
  (forall w', do_alloc b fuel [file; sz] w = (Some (-1), w') ->
     exists evs, trace w' = trace w ++ evs
       /\ (opened file evs -> files w' !! file = None /\ last evs = Some (Unlink file)))
  /\ (forall w', do_sparse [file; sz] w = (-1, w') ->
        exists evs, trace w' = trace w ++ evs
          /\ (opened file evs -> files w' !! file = None /\ last evs = Some (Unlink file))).
Proof.
  intros Hbs. split; intros w'.
  - now apply do_alloc_cleanup.
  - apply do_sparse_cleanup.
Qed.

Lemma error_after_open_unlinks_witness :
  exists w',
    do_sparse ["disk.img"; "1"]%string drive_refused_world = (-1, w')
    /\ files w' !! "disk.img"%string = None.
Proof.
  destruct (do_sparse ["disk.img"; "1"]%string drive_refused_world) as [r w'] eqn:E.
  assert (Hr : r = -1) by (apply (f_equal fst) in E; vm_compute in E; congruence).
  subst r. exists w'. split; [reflexivity|].
  assert (Htr : trace w' = [Open "disk.img" 3; Lseek 3 1023 1023; Write 3 1 1;
                            Close 3 (-1); Unlink "disk.img"])
    by (apply (f_equal (fun x => trace (snd x))) in E; vm_compute in E; exact (eq_sym E)).
  destruct (error_after_open_unlinks portable 0 "disk.img" "1" drive_refused_world eq_refl)
    as [_ Hsparse].
  destruct (Hsparse w' E) as (evs & Hevs & Hgone).
  apply Hgone. exists 3. split; [lia|].
  rewrite Htr in Hevs. cbn in Hevs. subst evs. cbn. auto.
Defined.

(** X11: the drive is added exactly when the handler returns 0: then the
    path is appended once to the drives of the handle; on every other
    outcome the drives are what they were. *)
Theorem drive_added_iff_success b fuel file sz w :
  0 < BUFSIZ b ->
  (forall res w', do_alloc b fuel [file; sz] w = (res, w') ->
     (res = Some 0 -> drives w' = drives w ++ [file])
     /\ (res <> Some 0 -> drives w' = drives w))
  /\ (forall r w', do_sparse [file; sz] w = (r, w') ->
        (r = 0 -> drives w' = drives w ++ [file])
        /\ (r <> 0 -> drives w' = drives w)).
Proof.
  intros Hbs.
  assert (Hleaf : forall (A : Type) (x y : A) (d d' : list string),
            (x = y /\ d' = d ++ [file]) \/ (x <> y /\ d' = d) ->
            (x = y -> d' = d ++ [file]) /\ (x <> y -> d' = d)).
  { intros A x y d d' [[-> ->] | [Hne ->]]; split; intros; congruence. }
  split.
  - intros res w'. unfold do_alloc. destruct (HAVE_POSIX_FALLOCATE b) eqn:Hb.
    + run. repeat (case_if; run). all: fallocate_cases.
      all: intros [= <- <-]; world_simpl; apply Hleaf;
        first [left; split; reflexivity | right; split; [discriminate | reflexivity]].
    + run. repeat (case_if; run).
      all: try (intros [= <- <-]; world_simpl; apply Hleaf;
                right; split; [discriminate | reflexivity]).
      pose proof (to_uint64_range (p_size (parse_size sz indeterminate))) as Hu.
      enter_loop W fl w2 Hloop.
      assert (Hfd : fdtable W !! Z.of_nat (next_fd w) = Some (file, 0))
        by (subst W; world_simpl; apply lookup_insert_eq).
      assert (Hfile : files W !! file = Some (zeros (Z.to_nat 0)))
        by (subst W; world_simpl; apply lookup_insert_eq).
      destruct (write_loop_spec (BUFSIZ b) file _ Hbs fuel _ 0 W fl w2
                  Hu ltac:(unfold OFF_MAX; lia) Hfd Hfile Hloop)
        as (writes & _ & _ & Hdr & Hfl).
      assert (HdW : drives w2 = drives w) by (rewrite Hdr; subst W; reflexivity).
      destruct fl as [|v|].
      * destruct Hfl as (_ & _ & _ & Hfd2 & _ & _).
        rewrite Hfd2. run. repeat (case_if; run); intros [= <- <-]; world_simpl.
        all: rewrite HdW; apply Hleaf;
          first [left; split; reflexivity | right; split; [discriminate | reflexivity]].
      * destruct Hfl as (-> & _). intros [= <- <-]. apply Hleaf.
        right. split; [discriminate | exact HdW].
      * intros [= <- <-]. apply Hleaf. right. split; [discriminate | exact HdW].
  - intros r w'. unfold do_sparse. run. repeat (case_if; run).
    all: intros [= <- <-]; world_simpl; apply Hleaf;
      first [left; split; reflexivity | right; split; [discriminate | reflexivity]].
Qed.

Lemma drive_added_iff_success_witness :
  drives (snd (do_sparse ["disk.img"; "1"]%string fresh_world)) = ["disk.img"%string]
  /\ drives (snd (do_sparse ["disk.img"; "0"]%string fresh_world)) = [].
Proof.
  destruct (drive_added_iff_success portable 0 "disk.img" "1" fresh_world eq_refl)
    as [_ H1].
  destruct (drive_added_iff_success portable 0 "disk.img" "0" fresh_world eq_refl)
    as [_ H0].
  split.
  - apply (H1 0 _ (surjective_pairing _)). reflexivity.
  - apply (H0 (-1) _ (surjective_pairing _)). discriminate.
Defined.

(** X12: no descriptor is left open: on every return of [do_sparse] and of
    [do_alloc] the descriptors open afterwards were open before, the one the
    handler opened has been closed. *)
Theorem no_descriptor_left_open b fuel file sz w :
  (forall res w', do_alloc b fuel [file; sz] w = (res, w') -> res <> None ->
     no_new_descriptor w w')
  /\ (forall r w', do_sparse [file; sz] w = (r, w') -> no_new_descriptor w w').
Proof.
  assert (Hclosed : forall (t : gmap Z (string * Z)) fd x,
            forall k v, delete fd (<[fd := x]> t) !! k = Some v -> t !! k = Some v).
  { intros t fd x k v. destruct (decide (k = fd)) as [-> | Hne].
    - rewrite lookup_delete_eq. discriminate.
    - rewrite lookup_delete_ne, lookup_insert_ne by congruence. auto. }
  assert (Hclosed2 : forall (t : gmap Z (string * Z)) fd x y,
            forall k v, delete fd (<[fd := y]> (<[fd := x]> t)) !! k = Some v -> t !! k = Some v).
  { intros t fd x y k v. destruct (decide (k = fd)) as [-> | Hne].
    - rewrite lookup_delete_eq. discriminate.
    - rewrite lookup_delete_ne, !lookup_insert_ne by congruence. auto. }
  assert (Hclosed3 : forall (t : gmap Z (string * Z)) fd x y z,
            forall k v, delete fd (<[fd := z]> (<[fd := y]> (<[fd := x]> t))) !! k = Some v ->
                        t !! k = Some v).
  { intros t fd x y z k v. destruct (decide (k = fd)) as [-> | Hne].
    - rewrite lookup_delete_eq. discriminate.
    - rewrite lookup_delete_ne, !lookup_insert_ne by congruence. auto. }
  split.
  - intros res w'. unfold do_alloc, no_new_descriptor.
    destruct (HAVE_POSIX_FALLOCATE b) eqn:Hb.
    + run. repeat (case_if; run). all: fallocate_cases.
      all: intros [= <- <-] _; world_simpl; first [tauto | apply Hclosed].
    + run. repeat (case_if; run).
      all: try (intros [= <- <-] _; world_simpl; tauto).
      enter_loop W fl w2 Hloop.
      destruct (write_loop_fdtable _ _ _ _ _ _ _ _ _ Hloop) as [Hother Hret].
      assert (HW : forall k, k <> Z.of_nat (next_fd w) ->
                             fdtable w2 !! k = fdtable w !! k).
      { intros k Hk. rewrite Hother by assumption. subst W. world_simpl.
        now apply lookup_insert_ne. }
      destruct fl as [|v|].
      * destruct (fdtable w2 !! Z.of_nat (next_fd w)) eqn:Hfd2;
          run; repeat (case_if; run); intros [= <- <-] _; world_simpl.
        all: intros k v; destruct (decide (k = Z.of_nat (next_fd w))) as [-> | Hne];
          [rewrite lookup_delete_eq; discriminate
          | rewrite lookup_delete_ne, HW by congruence; auto].
      * intros [= <- <-] _. intros k x.
        destruct (decide (k = Z.of_nat (next_fd w))) as [-> | Hne].
        -- rewrite (Hret v eq_refl). discriminate.
        -- rewrite HW by assumption. auto.
      * intros [= <- <-] Hnone. contradiction.
  - intros r w'. unfold do_sparse, no_new_descriptor. run. repeat (case_if; run).
    all: intros [= <- <-]; world_simpl;
      first [tauto | apply Hclosed | apply Hclosed2 | apply Hclosed3].
Qed.

Lemma no_descriptor_left_open_witness :
  fdtable (snd (do_alloc portable 10 ["disk.img"; "1"]%string fresh_world)) !! 3 = None.
Proof.
  destruct (no_descriptor_left_open portable 10 "disk.img" "1" fresh_world) as [Ha _].
  assert (Hres : Some 0 <> @None Z) by discriminate.
  pose proof (Ha (Some 0) _ (surjective_pairing _) Hres 3) as H.
  destruct (fdtable (snd (do_alloc portable 10 ["disk.img"; "1"]%string fresh_world)) !! 3)
    as [v|] eqn:E; [|reflexivity].
  specialize (H v eq_refl). discriminate H.
Defined.

(** X13: in a build with [HAVE_POSIX_FALLOCATE], a run of [do_alloc] that
    returns 0 with a positive size and a [posix_fallocate] the environment
    did not fail made the calls open, posix_fallocate of [size] bytes from
    offset 0 (answering 0), close, and left a file of [size] zero bytes. *)
Theorem fallocate_success_sizes_file b fuel file sz w w' :
  HAVE_POSIX_FALLOCATE b = true ->
  do_alloc b fuel [file; sz] w = (Some 0, w') ->
  failed (hd Done (tl (script w))) = false ->
  0 < p_size (parse_size sz indeterminate) ->
  files w' !! file = Some (zeros (Z.to_nat (p_size (parse_size sz indeterminate))))
  /\ exists fd,
       trace w' = trace w ++ [Open file fd;
                              PosixFallocate fd 0 (p_size (parse_size sz indeterminate)) 0;
                              Close fd 0].
Proof.
  intros Hb. unfold do_alloc. rewrite Hb.
  pose proof (parse_size_off_t sz indeterminate) as Hoff.
  destruct (parse_size_status sz indeterminate) as [Hp | Hp];
    [|rewrite Hp; run; intros [=]].
  specialize (Hoff Hp). set (size := p_size (parse_size sz indeterminate)) in *.
  run. repeat (case_if; run); try (intros [=]; fail).
  all: outcome_cases; run; unfold EBADF, EINVAL, EFBIG; cbn [Z.eqb];
    repeat (case_if; run).
  all: intros [= <-] Hf Hpos; try discriminate Hf; world_simpl.
  all: repeat match goal with
         | H : (_ || _) = true |- _ => apply orb_prop in H as [H | H]
         | H : (_ <? _) = true |- _ => apply Z.ltb_lt in H
         | H : (_ <=? _) = true |- _ => apply Z.leb_le in H
         end; try lia.
  all: split; [|eexists; trace_norm; reflexivity].
  all: rewrite lookup_alter_eq, lookup_insert_eq; cbn [fmap option_fmap option_map];
    cbn [length app]; do 2 f_equal; lia.
Qed.

Lemma fallocate_success_sizes_file_witness :
  files (snd (do_alloc linux 0 ["disk.img"; "4"]%string fresh_world)) !! "disk.img"%string
  = Some (zeros (Z.to_nat 4096)).
Proof.
  assert (Hpos : 0 < p_size (parse_size "4" indeterminate)) by reflexivity.
  exact (proj1 (fallocate_success_sizes_file linux 0 "disk.img" "4" fresh_world _
                  eq_refl (surjective_pairing _) eq_refl Hpos)).
Defined.

(** X14: with a parsed size of 0 the fallback [do_alloc] makes no [write]
    call and needs no iteration of the loop: it returns for any bound on the
    iterations, and when it returns 0 the file it registered is empty. *)
Theorem alloc_size_zero_writes_nothing b fuel file sz w :
  HAVE_POSIX_FALLOCATE b = false ->
  p_size (parse_size sz indeterminate) = 0 ->
  fst (do_alloc b fuel [file; sz] w) <> None
  /\ (exists evs,
        trace (snd (do_alloc b fuel [file; sz] w)) = trace w ++ evs
        /\ forall fd n r, ~ In (Write fd n r) evs)
  /\ (fst (do_alloc b fuel [file; sz] w) = Some 0 ->
      files (snd (do_alloc b fuel [file; sz] w)) !! file = Some []).
Proof.
  intros Hb Hsize. unfold do_alloc. rewrite Hb, Hsize.
  change (to_uint64 0) with 0.
  assert (Hloop : forall bs buffer fd w0,
            write_loop bs file fd buffer fuel 0 w0 = (Next, w0)).
  { intros. destruct fuel; reflexivity. }
  run. repeat (case_if; run).
  4: rewrite Hloop; run; repeat (case_if; run).
  all: (split; [discriminate|]); split.
  all: try (intros [=]; fail).
  all: try (exists []; split; [symmetry; apply app_nil_r | intros ? ? ? []]; fail).
  all: try (eexists; split; [trace_norm; reflexivity|];
            intros ? ? ? Hin; cbn [In] in Hin;
            repeat destruct Hin as [Hin | Hin]; (discriminate Hin || contradiction); fail).
  all: intros _; first [reflexivity | apply lookup_insert_eq].
Qed.

Lemma alloc_size_zero_writes_nothing_witness :
  fst (do_alloc portable 0 ["disk.img"; "0"]%string fresh_world) = Some 0
  /\ files (snd (do_alloc portable 0 ["disk.img"; "0"]%string fresh_world))
     !! "disk.img"%string = Some [].
Proof.
  destruct (alloc_size_zero_writes_nothing portable 0 "disk.img" "0" fresh_world
              eq_refl eq_refl) as (_ & _ & Hfile).
  split; [reflexivity | exact (Hfile eq_refl)].
Defined.

Section WriteCount.

(** Writes that all took what they were given: their number is the size
    divided by the buffer size, rounded up. *)
Lemma complete_writes_count bs fd remaining writes :
  0 < bs -> 0 <= remaining ->
  chunked bs fd remaining writes -> Forall complete writes ->
  written writes = remaining ->
  Z.of_nat (length writes) = (remaining + bs - 1) / bs.
Proof.
  intros Hbs. revert remaining.
  induction writes as [|e writes IH]; intros remaining Hrem Hch Hall Hwr.
  - cbn [written] in Hwr. subst remaining. cbn [length].
    rewrite Z.div_small by lia. reflexivity.
  - destruct e as [| |fd' n r| | |]; cbn [chunked] in Hch; try contradiction.
    destruct Hch as (-> & Hpos & -> & _ & Hch).
    inversion Hall as [|? ? Hc Hall']; subst. cbn [complete] in Hc. subst r.
    cbn [written] in Hwr.
    assert (Hne : (Z.min bs remaining =? -1) = false) by (apply Z.eqb_neq; lia).
    rewrite Hne in Hwr.
    specialize (IH (remaining - Z.min bs remaining) ltac:(lia) Hch Hall' ltac:(lia)).
    cbn [length]. rewrite Nat2Z.inj_succ, IH.
    destruct (Z.le_gt_cases bs remaining) as [Hge | Hlt].
    + rewrite Z.min_l by lia.
      replace (remaining + bs - 1) with (remaining - bs + bs - 1 + 1 * bs) by lia.
      rewrite Z.div_add by lia. lia.
    + rewrite Z.min_r by lia.
      replace (remaining - remaining + bs - 1) with (bs - 1) by lia.
      rewrite Z.div_small by lia.
      replace (remaining + bs - 1) with (remaining - 1 + 1 * bs) by lia.
      rewrite Z.div_add by lia. rewrite Z.div_small by lia. lia.
Qed.

(** The calls of a run of the fallback [do_alloc] that returns 0. *)
Lemma do_alloc_fallback_calls b fuel file sz w w' :
  HAVE_POSIX_FALLOCATE b = false -> 0 < BUFSIZ b ->
  do_alloc b fuel [file; sz] w = (Some 0, w') ->
  0 <= p_size (parse_size sz indeterminate)
  /\ exists fd writes,
       trace w' = trace w ++ Open file fd :: writes ++ [Close fd 0]
       /\ chunked (BUFSIZ b) fd (p_size (parse_size sz indeterminate)) writes
       /\ written writes = p_size (parse_size sz indeterminate).
Proof.
  intros Hb Hbs. unfold do_alloc. rewrite Hb.
  run. repeat (case_if; run); try (intros [= <-]; fail).
  set (size := p_size (parse_size sz indeterminate)).
  pose proof (to_uint64_range size) as Hu.
  enter_loop W fl w2 Hloop.
  assert (Hfd : fdtable W !! Z.of_nat (next_fd w) = Some (file, 0))
    by (subst W; world_simpl; apply lookup_insert_eq).
  assert (Hfile : files W !! file = Some (zeros (Z.to_nat 0)))
    by (subst W; world_simpl; apply lookup_insert_eq).
  destruct (write_loop_spec (BUFSIZ b) file _ Hbs fuel (to_uint64 size) 0 W fl w2
              Hu ltac:(unfold OFF_MAX; lia) Hfd Hfile Hloop)
    as (writes & Hch & Hcfg & _ & Hfl).
  destruct fl as [|v|]; [|destruct Hfl as [-> _]; intros [=]|intros [=]].
  destruct Hfl as (Htr & Hwr & Hmax & Hfd2 & Hfile2 & _).
  rewrite Z.add_0_l in *.
  pose proof (parse_size_off_t sz indeterminate) as Hoff.
  match goal with H : (p_ret _ =? -1) = false |- _ => rewrite Z.eqb_neq in H end.
  destruct (parse_size_status sz indeterminate) as [Hp | Hp]; [|contradiction].
  destruct (uint64_of_off_t size (Hoff Hp) Hmax) as [Hs Hnn].
  rewrite Hs in *. rewrite Hfd2. run. repeat (case_if; run); intros [= <-]; world_simpl.
  split; [exact Hnn|].
  exists (Z.of_nat (next_fd w)), writes. rewrite Htr. subst W. world_simpl.
  split; [trace_norm; reflexivity | auto].
Qed.

End WriteCount.

(** X15: in a run of the fallback [do_alloc] that returns 0, if every
    [write] took all it was given, the number of [write] calls is the size
    divided by [BUFSIZ], rounded up. *)
Theorem full_writes_count b fuel file sz w w' :
  HAVE_POSIX_FALLOCATE b = false -> 0 < BUFSIZ b ->
  do_alloc b fuel [file; sz] w = (Some 0, w') ->
  exists fd writes,
    trace w' = trace w ++ Open file fd :: writes ++ [Close fd 0]
    /\ (Forall complete writes ->
        Z.of_nat (length writes)
        = (p_size (parse_size sz indeterminate) + BUFSIZ b - 1) / BUFSIZ b).
Proof.
  intros Hb Hbs Hrun.
  destruct (do_alloc_fallback_calls b fuel file sz w w' Hb Hbs Hrun)
    as (Hnn & fd & writes & Htr & Hch & Hwr).
  exists fd, writes. split; [exact Htr|].
  intros Hall. now apply (complete_writes_count (BUFSIZ b) fd).
Qed.

Lemma full_writes_count_witness :
  exists writes,
    trace (snd (do_alloc portable 10 ["disk.img"; "20"]%string fresh_world))
    = Open "disk.img" 3 :: writes ++ [Close 3 0]
    /\ Z.of_nat (length writes) = 3.
Proof.
  destruct (full_writes_count portable 10 "disk.img" "20" fresh_world _
              eq_refl eq_refl (surjective_pairing _)) as (fd & writes & Htr & Hcount).
  assert (Hcalls : trace (snd (do_alloc portable 10 ["disk.img"; "20"]%string fresh_world))
                   = Open "disk.img" 3
                     :: [Write 3 8192 8192; Write 3 8192 8192; Write 3 4096 4096]
                     ++ [Close 3 0]) by (vm_compute; reflexivity).
  rewrite Hcalls in Htr. cbn [trace fresh_world app] in Htr.
  injection Htr as Hfd Hw. subst fd.
  change [Write 3 8192 8192; Write 3 8192 8192; Write 3 4096 4096; Close 3 0]
    with ([Write 3 8192 8192; Write 3 8192 8192; Write 3 4096 4096] ++ [Close 3 0]) in Hw.
  apply app_inv_tail in Hw. subst writes.
  eexists. split; [exact Hcalls|].
  apply Hcount. repeat constructor.
Defined.

(** X16: in [do_sparse] a [write] that takes no byte is an error like a
    failed one: after a successful open and seek, the handler prints the
    [write] diagnostic, closes, unlinks the file and returns -1. *)
Theorem sparse_short_write_fails file sz w :
  p_ret (parse_size sz indeterminate) = 0 -> config w = true ->
  1 <= p_size (parse_size sz indeterminate) ->
  failed (hd Done (script w)) = false ->
  failed (hd Done (tl (script w))) = false ->
  hd Done (tl (tl (script w))) = Short 0 ->
  fst (do_sparse [file; sz] w) = -1
  /\ (exists fd rc,
        trace (snd (do_sparse [file; sz] w))
        = trace w ++ [Open file fd;
                      Lseek fd (p_size (parse_size sz indeterminate) - 1)
                               (p_size (parse_size sz indeterminate) - 1);
                      Write fd 1 0; Close fd rc; Unlink file])
  /\ files (snd (do_sparse [file; sz] w)) !! file = None
  /\ stderr (snd (do_sparse [file; sz] w)) = stderr w ++ [Perror "write"]
  /\ drives (snd (do_sparse [file; sz] w)) = drives w.
Proof.
  intros Hp Hc Hsize Ho1 Ho2 Ho3.
  pose proof (parse_size_off_t sz indeterminate Hp) as Hrange.
  unfold do_sparse.
  rewrite (parse_ok_test sz Hp), (parse_size_ok_silent sz _ Hp).
  set (size := p_size (parse_size sz indeterminate)) in *.
  assert (Hoff : to_off_t (size - 1) = size - 1)
    by (apply to_off_t_small; unfold OFF_MAX in *; lia).
  run. rewrite Hc. run. rewrite Ho1. run. rewrite Ho2, Hoff. run.
  assert (Hneg : (size - 1 <? 0) = false) by (apply Z.ltb_ge; lia).
  rewrite Hneg. run.
  assert (Hm1 : (size - 1 =? -1) = false) by (apply Z.eqb_neq; lia).
  rewrite Hm1. run. rewrite Ho3. cbn [failed accepted]. run.
  assert (Hroom : (OFF_MAX - (size - 1) <=? 0) = false)
    by (apply Z.leb_gt; unfold OFF_MAX in *; lia).
  rewrite Hroom. run.
  assert (Hr : Z.max 0 (Z.min (Z.min (Z.of_N 0) 1) (OFF_MAX - (size - 1))) = 0)
    by (unfold OFF_MAX in *; lia).
  rewrite !Hr. change (0 =? 1) with false. run. rewrite !app_nil_r.
  split; [reflexivity|]. split; [eexists _, _; trace_norm; reflexivity|].
  split; [apply lookup_delete_eq|]. split; reflexivity.
Qed.

Lemma sparse_short_write_fails_witness :
  fst (do_sparse ["disk.img"; "1"]%string
         (set_script [Done; Done; Short 0] fresh_world)) = -1.
Proof.
  assert (Hsize : 1 <= p_size (parse_size "1" indeterminate)) by (vm_compute; discriminate).
  exact (proj1 (sparse_short_write_fails "disk.img" "1"
                  (set_script [Done; Done; Short 0] fresh_world)
                  eq_refl eq_refl Hsize eq_refl eq_refl eq_refl)).
Defined.

(** X17: [do_alloc] returns.  In a build with [HAVE_POSIX_FALLOCATE] it
    returns whatever the bound on the loop; in the fallback build it returns
    as soon as the bound covers the scripted outcomes of the environment and
    one iteration per byte of the size. *)
Theorem do_alloc_returns b fuel file sz w :
  0 < BUFSIZ b ->
  HAVE_POSIX_FALLOCATE b = true
  \/ (length (script w) + Z.to_nat (to_uint64 (p_size (parse_size sz indeterminate)))
      <= fuel)%nat ->
  fst (do_alloc b fuel [file; sz] w) <> None.
Proof.
  intros Hbs Hfuel. unfold do_alloc. destruct (HAVE_POSIX_FALLOCATE b) eqn:Hb.
  - run. repeat (case_if; run); try discriminate.
    all: outcome_cases; run; unfold EBADF, EINVAL, EFBIG; cbn [Z.eqb];
      repeat (case_if; run); discriminate.
  - destruct Hfuel as [Hf | Hfuel]; [discriminate|].
    run. repeat (case_if; run); try discriminate.
    pose proof (to_uint64_range (p_size (parse_size sz indeterminate))) as Hu.
    enter_loop W fl w2 Hloop.
    assert (Hfd : fdtable W !! Z.of_nat (next_fd w) = Some (file, 0))
      by (subst W; world_simpl; apply lookup_insert_eq).
    assert (Hlen : (length (script W)
                    + Z.to_nat (to_uint64 (p_size (parse_size sz indeterminate)))
                    <= fuel)%nat).
    { subst W. world_simpl. destruct (script w); cbn [tl length] in *; lia. }
    pose proof (write_loop_terminates (BUFSIZ b) file _ Hbs fuel _ 0 W Hu Hfd Hlen) as Hterm.
    rewrite Hloop in Hterm. cbn [fst] in Hterm.
    destruct fl as [|v|]; [|run; discriminate|contradiction].
    destruct (fdtable w2 !! Z.of_nat (next_fd w));
      run; repeat (case_if; run); discriminate.
Qed.

Lemma do_alloc_returns_witness :
  fst (do_alloc portable 1024 ["disk.img"; "1"]%string fresh_world) <> None.
Proof.
  apply (do_alloc_returns portable 1024 "disk.img" "1" fresh_world eq_refl).
  right. vm_compute. repeat constructor.
Defined.

Section IdealRun.

(** In an environment with nothing scripted a [write] within the room left
    takes all it is given. *)
Lemma sys_write_ideal fd buf n w path off :
  script w = [] -> fdtable w !! fd = Some (path, off) ->
  0 < n -> n <= OFF_MAX - off ->
  fst (sys_write fd buf n w) = n
  /\ script (snd (sys_write fd buf n w)) = []
  /\ fdtable (snd (sys_write fd buf n w)) !! fd = Some (path, off + n).
Proof.
  intros Hs Hfd Hn Hroom. unfold sys_write. run. rewrite Hfd, Hs. cbn [hd tl failed accepted].
  assert (H1 : (0 <? n) = true) by (apply Z.ltb_lt; lia).
  assert (H2 : (OFF_MAX - off <=? 0) = false) by (apply Z.leb_gt; lia).
  rewrite H1, H2. run.
  replace (Z.max 0 (Z.min n (OFF_MAX - off))) with n by lia.
  repeat split; try apply lookup_insert_eq.
Qed.

Lemma write_loop_ideal bs file fd buffer :
  0 < bs ->
  forall fuel remaining off w,
    script w = [] -> fdtable w !! fd = Some (file, off) ->
    0 <= remaining <= U64_MAX -> remaining <= OFF_MAX - off ->
    (forall v, fst (write_loop bs file fd buffer fuel remaining w) <> Return v)
    /\ script (snd (write_loop bs file fd buffer fuel remaining w)) = [].
Proof.
  intros Hbs. induction fuel as [|fuel IH]; intros remaining off w Hs Hfd Hrem Hroom;
    cbn [write_loop].
  - destruct (0 <? remaining); cbn; (split; [discriminate | assumption]).
  - destruct (0 <? remaining) eqn:Hpos; [|cbn; split; [discriminate | assumption]].
    apply Z.ltb_lt in Hpos. rewrite chunk_size.
    set (n := Z.min bs remaining). assert (Hn : 0 < n <= remaining) by lia.
    match goal with
    | |- context [bind ?m ?k w] => change (bind m k w) with (let (a, w') := m w in k a w')
    end.
    destruct (sys_write_ideal fd buffer n w file off Hs Hfd ltac:(lia) ltac:(lia))
      as (Hr & Hs1 & Hfd1).
    destruct (sys_write fd buffer n w) as [r w1]. cbn [fst snd] in *. subst r.
    assert (Hne : (n =? -1) = false) by (apply Z.eqb_neq; lia).
    rewrite Hne, to_uint64_small by lia.
    apply (IH _ (off + n)); auto; lia.
Qed.

End IdealRun.

(** X18: in an environment where every call goes well, with configuration
    open and a parsed size of at least 1, the three ways of making the image
    agree: [do_alloc] in either build (given a bound on the loop of at least
    the size) and [do_sparse] return 0, leave a file of exactly [size] zero
    bytes at the path, and add the path once to the drives. *)
Theorem ideal_run_makes_image bufsiz fuel file sz w :
  0 < bufsiz ->
  p_ret (parse_size sz indeterminate) = 0 -> config w = true -> script w = [] ->
  1 <= p_size (parse_size sz indeterminate) ->
  (Z.to_nat (p_size (parse_size sz indeterminate)) <= fuel)%nat ->
  let image := Some (zeros (Z.to_nat (p_size (parse_size sz indeterminate)))) in
  (fst (do_alloc (Build true bufsiz) fuel [file; sz] w) = Some 0
   /\ files (snd (do_alloc (Build true bufsiz) fuel [file; sz] w)) !! file = image
   /\ drives (snd (do_alloc (Build true bufsiz) fuel [file; sz] w)) = drives w ++ [file])
  /\ (fst (do_alloc (Build false bufsiz) fuel [file; sz] w) = Some 0
      /\ files (snd (do_alloc (Build false bufsiz) fuel [file; sz] w)) !! file = image
      /\ drives (snd (do_alloc (Build false bufsiz) fuel [file; sz] w)) = drives w ++ [file])
  /\ (fst (do_sparse [file; sz] w) = 0
      /\ files (snd (do_sparse [file; sz] w)) !! file = image
      /\ drives (snd (do_sparse [file; sz] w)) = drives w ++ [file]).
Proof.
  intros Hbs Hp Hc Hs Hsize Hfuel image. subst image.
  pose proof (parse_size_off_t sz indeterminate Hp) as Hrange.
  destruct w as [f t n c d e tr sc]. cbn [config script] in Hc, Hs. subst c sc.
  unfold do_alloc, do_sparse. cbn [HAVE_POSIX_FALLOCATE BUFSIZ].
  rewrite (parse_ok_test sz Hp), (parse_size_ok_silent sz _ Hp).
  set (size := p_size (parse_size sz indeterminate)) in *.
  assert (Hu : to_uint64 size = size) by (apply to_uint64_small; unfold U64_MAX, OFF_MAX in *; lia).
  split; [|split].
  - repeat first [progress run | progress cbn [hd tl failed]].
    assert (H1 : (size <=? 0) = false) by (apply Z.leb_gt; lia).
    assert (H2 : (OFF_MAX <? 0 + size) = false) by (apply Z.ltb_ge; lia).
    change (0 <? 0) with false. rewrite H1, H2.
    repeat first [progress run | progress cbn [hd tl failed]].
    split; [reflexivity|]. split; [|reflexivity].
    rewrite lookup_alter_eq, lookup_insert_eq. cbn [fmap option_fmap option_map length app].
    do 2 f_equal. lia.
  - repeat first [progress run | progress cbn [hd tl failed]].
    rewrite Hu. enter_loop W fl w2 Hloop.
    assert (Hfd : fdtable W !! Z.of_nat n = Some (file, 0))
      by (subst W; world_simpl; apply lookup_insert_eq).
    assert (Hfile : files W !! file = Some (zeros (Z.to_nat 0)))
      by (subst W; world_simpl; apply lookup_insert_eq).
    assert (HsW : script W = []) by reflexivity.
    assert (Hrem : 0 <= size <= U64_MAX) by (unfold U64_MAX, OFF_MAX in *; lia).
    destruct (write_loop_spec bufsiz file _ Hbs fuel size 0 W fl w2
                Hrem ltac:(unfold OFF_MAX; lia) Hfd Hfile Hloop)
      as (writes & _ & Hcfg & Hdr & Hfl).
    pose proof (write_loop_terminates bufsiz file _ Hbs fuel size 0 W Hrem Hfd
                  ltac:(rewrite HsW; cbn [length]; lia)) as Hterm.
    rewrite Hloop in Hterm. cbn [fst] in Hterm.
    destruct (write_loop_ideal bufsiz file (Z.of_nat n) (zeros (Z.to_nat bufsiz)) Hbs
                fuel size 0 W HsW Hfd Hrem ltac:(lia)) as (Hnoret & Hs2).
    rewrite Hloop in Hnoret, Hs2. cbn [fst snd] in Hnoret, Hs2.
    destruct fl as [|v|]; [|exfalso; exact (Hnoret v eq_refl)|contradiction].
    destruct Hfl as (_ & _ & _ & Hfd2 & Hfile2 & _). rewrite Z.add_0_l in *.
    rewrite Hfd2. run. rewrite Hs2.
    repeat first [progress run | progress cbn [hd tl failed]].
    rewrite Hcfg. subst W.
    repeat first [progress run | progress cbn [hd tl failed]].
    split; [reflexivity|]. split; [exact Hfile2|]. rewrite Hdr. reflexivity.
  - assert (Hoff : to_off_t (size - 1) = size - 1)
      by (apply to_off_t_small; unfold OFF_MAX in *; lia).
    rewrite Hoff.
    repeat first [progress run | progress cbn [hd tl failed accepted]].
    assert (H1 : (size - 1 <? 0) = false) by (apply Z.ltb_ge; lia).
    assert (H2 : (size - 1 =? -1) = false) by (apply Z.eqb_neq; lia).
    assert (H3 : (OFF_MAX - (size - 1) <=? 0) = false)
      by (apply Z.leb_gt; unfold OFF_MAX in *; lia).
    rewrite H1. repeat first [progress run | progress cbn [hd tl failed accepted]].
    rewrite H2. repeat first [progress run | progress cbn [hd tl failed accepted]].
    rewrite H3. repeat first [progress run | progress cbn [hd tl failed accepted]].
    assert (Hr : Z.max 0 (Z.min 1 (OFF_MAX - (size - 1))) = 1) by (unfold OFF_MAX in *; lia).
    rewrite !Hr. change (1 =? 1) with true.
    repeat first [progress run | progress cbn [hd tl failed accepted]].
    split; [reflexivity|]. split; [|reflexivity].
    rewrite lookup_alter_eq, lookup_insert_eq. cbn [fmap option_fmap option_map].
    change (take (Z.to_nat 1) [x00]) with (zeros 1).
    rewrite write_at_empty, <- zeros_add. do 2 f_equal. lia.
Qed.

Lemma ideal_run_makes_image_witness :
  files (snd (do_alloc portable 4096 ["disk.img"; "4"]%string fresh_world))
  !! "disk.img"%string
  = files (snd (do_sparse ["disk.img"; "4"]%string fresh_world)) !! "disk.img"%string.
Proof.
  assert (Hbs : 0 < 8192) by reflexivity.
  assert (Hsize : 1 <= p_size (parse_size "4" indeterminate)) by (vm_compute; discriminate).
  assert (Hfuel : (Z.to_nat (p_size (parse_size "4" indeterminate)) <= 4096)%nat)
    by (vm_compute; repeat constructor).
  destruct (ideal_run_makes_image 8192 4096 "disk.img" "4" fresh_world
              Hbs eq_refl eq_refl eq_refl Hsize Hfuel)
    as (_ & (_ & Hp & _) & (_ & Hsp & _)).
  unfold portable. rewrite Hp, Hsp. reflexivity.
Defined.

(** X19: a plus sign before the digits changes nothing: the status and the
    stored size are those of the string without it. *)
Theorem parse_size_plus d s old :
  isdigit d = true ->
  same_result (parse_size (String "+" (String d s)) old) (parse_size (String d s) old).
Proof.
  intros Hd. destruct (digit_char d Hd) as (Hsp & Hm & Hp & Hn & _ & _).
  assert (Hscan : scan_u64 (String "+" (String d s)) = scan_u64 (String d s)).
  { unfold scan_u64. cbn [skip_space].
    replace (isspace "+") with false by reflexivity. rewrite Hsp. cbn [at_end].
    replace (Ascii.eqb "+" NUL) with false by reflexivity.
    replace (Ascii.eqb "+" "-") with false by reflexivity.
    replace (Ascii.eqb "+" "+") with true by reflexivity.
    rewrite Hn, Hm, Hp. reflexivity. }
  unfold same_result. rewrite !parse_size_scan, Hscan.
  destruct (scan_u64 (String d s)) as [| |v r]; [auto | auto |].
  destruct (at_end r); [auto|].
  destruct r as [|x r]; [auto|]. destruct (switch_type x v); auto.
Qed.

Lemma parse_size_plus_witness :
  p_size (parse_size "+5g" 7) = p_size (parse_size "5g" 7).
Proof. exact (proj2 (parse_size_plus "5" "g" 7 eq_refl)). Defined.
